(** * The batch endpoint prober of CKTV: [testApi], [runWithConcurrency], [main]

    A shallow embedding of the API test script (the probe executor, the
    bounded scheduler and the report stage) and the properties its
    specification states about it. *)

From Stdlib Require Import ZArith String List Lia Sorting.Sorted Permutation.
From stdpp Require Import gmap strings list fin_maps pretty.
From Equations Require Import Equations.

Set Warnings "-register-all,-clear-no-such-hyp".

Open Scope string_scope.
Open Scope list_scope.
Open Scope Z_scope.

(** ** JavaScript values *)

(** The values that can sit in a property of a probe result: a parsed JSON
    body, or [undefined] for a property that was never set.  Numbers carry
    an integer: the script only tests a body number for zero and counts
    array elements.  [VObj] lists the own properties of a parsed object,
    each key once. *)
Inductive Value :=
| VUndefined
| VNull
| VBool (b : bool)
| VNum (n : Z)
| VStr (s : string)
| VArr (elems : list Value)
| VObj (props : list (string * Value)).

(** ToBoolean. *)
Definition truthy (v : Value) : bool :=
  match v with
  | VUndefined | VNull => false
  | VBool b => b
  | VNum n => negb (n =? 0)
  | VStr s => negb (String.eqb s "")
  | VArr _ | VObj _ => true
  end.

(** [a && b] returns [a] when it is falsy and [b] otherwise. *)
Definition js_and (a b : Value) : Value := if truthy a then b else a.

Fixpoint assoc (k : string) (props : list (string * Value)) : Value :=
  match props with
  | [] => VUndefined
  | (k', v) :: rest => if String.eqb k k' then v else assoc k rest
  end.

(** [v.list] on a value that is neither [null] nor [undefined]: only a
    parsed object has own properties called [list]. *)
Definition get_list (v : Value) : Value :=
  match v with
  | VObj props => assoc "list" props
  | _ => VUndefined
  end.

(** [Array.isArray]. *)
Definition isArray (v : Value) : bool :=
  match v with VArr _ => true | _ => false end.

(** [v.length] of an array. *)
Definition array_length (v : Value) : Z :=
  match v with VArr l => Z.of_nat (length l) | _ => 0 end.

(** ** Configuration *)

Record Config := {
  timeout : Z;
  concurrency : Z;
  retryCount : Z;
  testQuery : string
}.

Definition CONFIG : Config :=
  {| timeout := 8000; concurrency := 10; retryCount := 1;
     testQuery := "?ac=list" |}.

(** ** The world a probe runs in *)

Record JsError := { err_name : string; err_message : string }.

(** What [response.json()] does with the body, and how long it takes. *)
Inductive Body :=
| Parses (readMs : Z) (data : Value)
| Malformed (readMs : Z) (e : JsError).

(** What the remote side does with one request. *)
Inductive Exchange :=
| Answers (latency : Z) (status : Z) (body : Body)
| Breaks (latency : Z) (e : JsError)
| Silent.

(** The clock read by [Date.now()], the number of [fetch] calls issued so
    far, and how the network treats the n-th request to a URL. *)
Record World := {
  clock : Z;
  requests : nat;
  network : string -> nat -> Exchange
}.

Definition tick (d : Z) (w : World) : World :=
  {| clock := clock w + d; requests := requests w; network := network w |}.

Definition sent (w : World) : World :=
  {| clock := clock w; requests := S (requests w); network := network w |}.

Record Response := { resp_status : Z; resp_body : Body }.

(** [response.ok]: the status is in the range 200-299. *)
Definition is_2xx (st : Z) : bool := (200 <=? st) && (st <=? 299).

Definition ok (r : Response) : bool := is_2xx (resp_status r).

(** The error [fetch] rejects with when its signal is aborted. *)
Definition AbortError : JsError :=
  {| err_name := "AbortError"; err_message := "This operation was aborted" |}.

(** [await fetch(url, {signal})] under the timer
    [setTimeout(() => controller.abort(), ms)]: whatever the remote side
    does in less than [ms] is what [fetch] settles with; otherwise the
    timer fires, taken to be on time, and the request is aborted. *)
Definition fetch (url : string) (ms : Z) (w : World)
  : (JsError + Response) * World :=
  match network w url (requests w) with
  | Answers d st b =>
      if d <? ms then (inr {| resp_status := st; resp_body := b |}, tick d (sent w))
      else (inl AbortError, tick ms (sent w))
  | Breaks d e =>
      if d <? ms then (inl e, tick d (sent w))
      else (inl AbortError, tick ms (sent w))
  | Silent => (inl AbortError, tick ms (sent w))
  end.

(** [await response.json()]; the timer has been cleared by then. *)
Definition json (r : Response) (w : World) : (JsError + Value) * World :=
  match resp_body r with
  | Parses d v => (inr v, tick d w)
  | Malformed d e => (inl e, tick d w)
  end.

(** ** Probe results *)

Record Outcome := {
  key : string;
  api : string;
  status : string;
  httpCode : option Z;
  time : Z;
  dataCount : option Z;
  hasValidData : Value;
  error : option string
}.

(** The decimal text of a number inside a template literal. *)
Definition show_Z (z : Z) : string := pretty z.

(** The [try] block of [testApi]: it either returns a result or throws,
    and the [catch] block then reads the clock again. *)
Definition attempt (key apiUrl : string) (w : World)
  : (JsError * Z + Outcome) * World :=
  let startTime := clock w in
  match fetch (apiUrl +:+ testQuery CONFIG) (timeout CONFIG) w with
  | (inl error, w1) => (inl (error, clock w1 - startTime), w1)
  | (inr response, w1) =>
      let elapsed := clock w1 - startTime in
      if ok response then
        match json response w1 with
        | (inl error, w2) => (inl (error, clock w2 - startTime), w2)
        | (inr data, w2) =>
            let hasData :=
              js_and (js_and data (get_list data))
                     (VBool (isArray (get_list data))) in
            let count :=
              if truthy hasData then array_length (get_list data) else 0 in
            (inr {| key := key; api := apiUrl; status := "success";
                    httpCode := Some (resp_status response);
                    time := elapsed;
                    dataCount := Some count;
                    hasValidData := js_and hasData (VBool (0 <? count));
                    error := None |}, w2)
        end
      else
        (inr {| key := key; api := apiUrl; status := "http_error";
                httpCode := Some (resp_status response);
                time := elapsed;
                dataCount := None;
                hasValidData := VUndefined;
                error := Some ("HTTP " +:+ show_Z (resp_status response)) |},
         w1)
  end.

(** [testApi(key, apiUrl, retries)]. *)
Equations? testApi (key apiUrl : string) (retries : Z) (w : World)
  : Outcome * World by wf (Z.to_nat retries) lt :=
  testApi key apiUrl retries w with attempt key apiUrl w => {
    | (inr result, w') := (result, w');
    | (inl (error, elapsed), w') with
        Z_lt_dec 0 retries,
        string_dec (err_name error) "AbortError" => {
        | left _, right _ := testApi key apiUrl (retries - 1) w';
        | _, _ :=
            ({| key := key; api := apiUrl; status := "error";
                httpCode := None;
                time := elapsed;
                dataCount := None;
                hasValidData := VUndefined;
                error := Some (if string_dec (err_name error) "AbortError"
                               then "超时" else err_message error) |}, w') } }.
Proof. lia. Qed.

(** ** The bounded scheduler *)

(** [runWithConcurrency] runs on the event loop: the [for] loop runs
    without interruption until it awaits, task promises settle while it is
    suspended, and the order in which they do is not under its control.
    The promise made for the task at index [i] is identified with [i].
    Tasks are taken to fulfil, as those of [main] do: [testApi] catches
    whatever its attempt throws. *)
Section Scheduler.
Context {Task Env A : Type}.
(** The value a task's promise is fulfilled with, given the world the
    task ran in. *)
Variable perform : Task -> Env -> A.
Variable tasks : list Task.
Variable limit : Z.

(** Where the body of [runWithConcurrency] stands: running the loop,
    suspended at [await Promise.race(executing)] (with the race decided or
    not), suspended at [Promise.all(results)], or done. *)
Inductive Phase :=
| InLoop
| AwaitRace (resolved : bool)
| AwaitAll
| Returned (out : list A).

(** The loop index, the [results] array, the [executing] set, the tasks
    whose own promise is pending, the tasks whose [then] callback is
    queued with the value it will receive, and the promises of [results]
    that are fulfilled. *)
Record Sched := {
  next : nat;
  results : list nat;
  executing : gset nat;
  inflight : gset nat;
  ready : gmap nat A;
  fulfilled : gmap nat A;
  phase : Phase
}.

Definition start : Sched :=
  {| next := 0%nat; results := []; executing := ∅; inflight := ∅;
     ready := ∅; fulfilled := ∅; phase := InLoop |}.

(** What can happen next; a schedule is a list of such events. *)
Inductive Event :=
| Dispatch
| Settle (i : nat) (e : Env)
| Callback (i : nat)
| Resume
| LoopEnd
| Return.

Definition suspended (p : Phase) : bool :=
  match p with AwaitRace _ | AwaitAll => true | _ => false end.

(** One iteration of the loop body up to its [await]. *)
Definition dispatch (s : Sched) : option Sched :=
  match phase s, tasks !! next s with
  | InLoop, Some _ =>
      let promise := next s in
      let executing' := {[promise]} ∪ executing s in
      Some {| next := S (next s);
              results := results s ++ [promise];
              executing := executing';
              inflight := {[promise]} ∪ inflight s;
              ready := ready s;
              fulfilled := fulfilled s;
              phase := if limit <=? Z.of_nat (size executing')
                       then AwaitRace false else InLoop |}
  | _, _ => None
  end.

(** The promise returned by [task()] is fulfilled; its [then] callback
    is queued. *)
Definition settle (i : nat) (e : Env) (s : Sched) : option Sched :=
  match tasks !! i with
  | Some t =>
      if suspended (phase s) && bool_decide (i ∈ inflight s) then
        Some {| next := next s; results := results s;
                executing := executing s;
                inflight := inflight s ∖ {[i]};
                ready := <[i := perform t e]> (ready s);
                fulfilled := fulfilled s;
                phase := phase s |}
      else None
  | None => None
  end.

(** The [then] callback: [executing.delete(promise); return result]. *)
Definition callback (i : nat) (s : Sched) : option Sched :=
  match ready s !! i with
  | Some result =>
      if suspended (phase s) then
        Some {| next := next s; results := results s;
                executing := executing s ∖ {[i]};
                inflight := inflight s;
                ready := delete i (ready s);
                fulfilled := <[i := result]> (fulfilled s);
                phase := match phase s with
                         | AwaitRace _ => AwaitRace true
                         | p => p
                         end |}
      else None
  | None => None
  end.

Definition with_phase (p : Phase) (s : Sched) : Sched :=
  {| next := next s; results := results s; executing := executing s;
     inflight := inflight s; ready := ready s; fulfilled := fulfilled s;
     phase := p |}.

Definition step (ev : Event) (s : Sched) : option Sched :=
  match ev with
  | Dispatch => dispatch s
  | Settle i e => settle i e s
  | Callback i => callback i s
  | Resume =>
      match phase s with
      | AwaitRace true => Some (with_phase InLoop s)
      | _ => None
      end
  | LoopEnd =>
      match phase s, tasks !! next s with
      | InLoop, None => Some (with_phase AwaitAll s)
      | _, _ => None
      end
  | Return =>
      match phase s with
      | AwaitAll =>
          out ← mapM (λ p, fulfilled s !! p) (results s);
          Some (with_phase (Returned out) s)
      | _ => None
      end
  end.

Fixpoint exec (evs : list Event) (s : Sched) : option Sched :=
  match evs with
  | [] => Some s
  | ev :: rest => s' ← step ev s; exec rest s'
  end.

(** The value [await runWithConcurrency(tasks, concurrency)] produces
    under a schedule, if the schedule runs the call to its end. *)
Definition runWithConcurrency (evs : list Event) : option (list A) :=
  match exec evs start with
  | Some s => match phase s with Returned out => Some out | _ => None end
  | None => None
  end.

(** What holds of every state the scheduler can be in. *)
Definition from_task (i : nat) (x : A) : Prop :=
  exists t e, tasks !! i = Some t /\ x = perform t e.

Record consistent (s : Sched) : Prop := {
  c_executing : executing s = inflight s ∪ dom (ready s);
  c_apart : forall i, i ∈ inflight s -> ready s !! i = None;
  c_results : results s = seq 0 (next s);
  c_next : (next s <= length tasks)%nat;
  c_inflight : forall i, i ∈ inflight s -> (i < next s)%nat;
  c_ready : forall i x, ready s !! i = Some x ->
                        (i < next s)%nat /\ from_task i x;
  c_fulfilled : forall i x, fulfilled s !! i = Some x -> from_task i x;
  c_covered : forall i, (i < next s)%nat ->
                i ∈ inflight s \/ is_Some (ready s !! i)
                \/ is_Some (fulfilled s !! i);
  c_phase : match phase s with
            | InLoop | AwaitRace true => True
            | AwaitRace false => executing s <> ∅
            | AwaitAll => next s = length tasks
            | Returned out =>
                Forall2 (fun t x => exists e, x = perform t e) tasks out
            end
}.

(** The admission bound, with the slack the loop needs to add one more
    promise when it runs. *)
Definition admitted (s : Sched) : Prop :=
  match phase s with
  | InLoop | AwaitRace true => Z.of_nat (size (executing s)) < limit
  | _ => Z.of_nat (size (executing s)) <= limit
  end.

(** What is left to do before the call returns. *)
Definition remaining (s : Sched) : nat :=
  8 * (length tasks - next s) + 4 * size (inflight s) + 2 * size (ready s)
  + match phase s with
    | AwaitRace _ => 3
    | InLoop => 2
    | AwaitAll => 1
    | Returned _ => 0
    end.
End Scheduler.

Arguments InLoop {A}.
Arguments AwaitRace {A} resolved.
Arguments AwaitAll {A}.
Arguments Dispatch {Env}.
Arguments Callback {Env} i.
Arguments Resume {Env}.
Arguments LoopEnd {Env}.
Arguments Return {Env}.

(** ** The run driver and the report *)

(** One entry of [config.api_site]. *)
Record Site := { site_name : string; site_api : string }.

(** [{ ...result, name: site.name }]. *)
Record Row := { result :> Outcome; name : string }.

(** A task made by [apiKeys.map]: it probes its site with the default
    retry budget and adds the display name.  The progress line it prints
    is not part of the model. *)
Definition probe_task (t : string * Site) (w : World) : Row :=
  let (result, _) := testApi (fst t) (site_api (snd t)) (retryCount CONFIG) w in
  {| result := result; name := site_name (snd t) |}.

(** The three [filter] callbacks. *)
Definition is_successful (r : Row) : bool :=
  String.eqb (status r) "success" && truthy (hasValidData r).

Definition is_noData (r : Row) : bool :=
  String.eqb (status r) "success" && negb (truthy (hasValidData r)).

Definition is_failed (r : Row) : bool :=
  negb (String.eqb (status r) "success").

(** The comparator [(a, b) => a.time - b.time]. *)
Definition by_time (a b : Row) : Z := time a - time b.

(** Arrays are objects: a variable holds a reference, [filter] and [map]
    make a new array, [sort] reorders the array it is called on.  The store
    also keeps the rows listed on the console, in the order printed. *)
Record Store := {
  arrays : gmap nat (list Row);
  console : list Row
}.

Definition JS (T : Type) : Type := Store -> T * Store.

#[global] Instance JS_ret : MRet JS := λ _ x st, (x, st).
#[global] Instance JS_bind : MBind JS :=
  λ _ _ f m st, let (x, st') := m st in f x st'.

Definition new_array (xs : list Row) : JS nat :=
  λ st, let a := fresh (dom (arrays st)) in
        (a, {| arrays := <[a := xs]> (arrays st); console := console st |}).

Definition elements_of (a : nat) : JS (list Row) :=
  λ st, (default [] (arrays st !! a), st).

Definition Array_filter (p : Row -> bool) (a : nat) : JS nat :=
  xs ← elements_of a; new_array (List.filter p xs).

Definition Array_length (a : nat) : JS Z :=
  xs ← elements_of a; mret (Z.of_nat (length xs)).

Definition Array_map {B} (f : Row -> B) (a : nat) : JS (list B) :=
  xs ← elements_of a; mret (List.map f xs).

(** [Array.prototype.sort] is stable and sorts in place; for a consistent
    comparator its result is the stable sorted arrangement, computed here
    by insertion from the right. *)
Fixpoint sort_insert (cmp : Row -> Row -> Z) (x : Row) (l : list Row)
  : list Row :=
  match l with
  | [] => [x]
  | y :: l' => if cmp x y <=? 0 then x :: l else y :: sort_insert cmp x l'
  end.

Definition stable_sort (cmp : Row -> Row -> Z) (l : list Row) : list Row :=
  foldr (sort_insert cmp) [] l.

Definition Array_sort (cmp : Row -> Row -> Z) (a : nat) : JS nat :=
  λ st, (a, {| arrays := alter (stable_sort cmp) a (arrays st);
               console := console st |}).

Definition print_rows (a : nat) : JS unit :=
  λ st, (tt, {| arrays := arrays st;
                console := console st ++ default [] (arrays st !! a) |}).

Definition opt_num (o : option Z) : Value :=
  match o with Some n => VNum n | None => VUndefined end.

Definition opt_str (o : option string) : Value :=
  match o with Some s => VStr s | None => VUndefined end.

(** The object built for each row by [results.map] in the report. *)
Definition report_entry (r : Row) : list (string * Value) :=
  [ ("key", VStr (key r));
    ("name", VStr (name r));
    ("api", VStr (api r));
    ("status", VStr (status r));
    ("httpCode", opt_num (httpCode r));
    ("timeMs", VNum (time r));
    ("dataCount", opt_num (dataCount r));
    ("hasValidData", hasValidData r);
    ("error", opt_str (error r)) ].

Record Report := {
  testTime : string;
  totalApis : Z;
  successCount : Z;
  noDataCount : Z;
  failedCount : Z;
  totalTimeMs : Z;
  report_results : list (list (string * Value))
}.

(** The part of [main] after the scheduler has returned: the three
    buckets, the listing of the available sites and the report object. *)
Definition summarize (now : string) (totalTime : Z) (results : nat)
  : JS Report :=
  successful ← Array_filter is_successful results;
  noData ← Array_filter is_noData results;
  failed ← Array_filter is_failed results;
  shown ← Array_length successful;
  _ ← (if 0 <? shown
       then sorted ← Array_sort by_time successful; print_rows sorted
       else mret tt);
  total ← Array_length results;
  nSuccess ← Array_length successful;
  nNoData ← Array_length noData;
  nFailed ← Array_length failed;
  entries ← Array_map report_entry results;
  mret {| testTime := now;
          totalApis := total;
          successCount := nSuccess;
          noDataCount := nNoData;
          failedCount := nFailed;
          totalTimeMs := totalTime;
          report_results := entries |}.

Definition empty_store : Store := {| arrays := ∅; console := [] |}.

(** [main] for a registry [apiSites] (its entries in [Object.keys] order)
    under a schedule of the event loop. *)
Definition main (apiSites : list (string * Site))
    (evs : list (@Event World)) (now : string) (totalTime : Z)
  : option (Report * Store) :=
  results ← runWithConcurrency probe_task apiSites (concurrency CONFIG) evs;
  Some ((a ← new_array results; summarize now totalTime a) empty_store).

(** [JSON.stringify] leaves out the properties whose value is
    [undefined]. *)
Definition is_undefined (v : Value) : bool :=
  match v with VUndefined => true | _ => false end.

Definition stringify_props (o : list (string * Value))
  : list (string * Value) :=
  List.filter (λ kv, negb (is_undefined (snd kv))) o.

Definition has_field (k : string) (o : list (string * Value)) : bool :=
  existsb (λ kv, String.eqb k (fst kv)) o.

(** The [results] array of the document written to
    [api-test-report.json]. *)
Definition persisted_results (r : Report) : list (list (string * Value)) :=
  List.map stringify_props (report_results r).

(** ** Vocabulary for the statements about a probe *)

(** The exchange that the next attempt of a probe of [apiUrl] meets. *)
Definition exchange (apiUrl : string) (w : World) (i : nat) : Exchange :=
  network w (apiUrl +:+ testQuery CONFIG) i.

(** The timer fires before the remote side has done anything. *)
Definition timed_out (x : Exchange) : bool :=
  match x with
  | Answers d _ _ | Breaks d _ => negb (d <? timeout CONFIG)
  | Silent => true
  end.

(** The error raised by an attempt that fails before the timer fires: a
    transport failure, or a 2xx response whose body does not parse. *)
Definition failure (x : Exchange) : option JsError :=
  match x with
  | Breaks d e => if d <? timeout CONFIG then Some e else None
  | Answers d st (Malformed _ e) =>
      if (d <? timeout CONFIG) && is_2xx st then Some e else None
  | _ => None
  end.

(** The time between the start of an attempt and the point where this
    attempt reads the clock again: when [fetch] settles, or when the body
    fails to parse. *)
Definition span (x : Exchange) : Z :=
  match x with
  | Answers d st b =>
      if d <? timeout CONFIG then
        match b with
        | Malformed rd _ => if is_2xx st then d + rd else d
        | Parses _ _ => d
        end
      else timeout CONFIG
  | Breaks d _ => if d <? timeout CONFIG then d else timeout CONFIG
  | Silent => timeout CONFIG
  end.

(** The reading of "elapsed time is measured from request start to
    terminal classification, inclusive of all retries" for a probe that
    retried at least once: the reported time is what the clock has
    advanced by between the call and the return. *)
Definition elapsed_covers_all_attempts
    (key apiUrl : string) (retries : Z) (w : World) : Prop :=
  let r := testApi key apiUrl retries w in
  (S (requests w) < requests (snd r))%nat ->
  time (fst r) = clock (snd r) - clock w.

(** Which properties a result of a probe of [apiUrl] under [key] has, as
    decided by its status. *)
Definition well_shaped (key_ apiUrl : string) (r : Outcome) : Prop :=
  key r = key_ /\ api r = apiUrl /\
  ((status r = "success" /\ is_Some (httpCode r) /\
    is_Some (dataCount r) /\ error r = None) \/
   (status r = "http_error" /\ is_Some (httpCode r) /\
    dataCount r = None /\ hasValidData r = VUndefined /\
    is_Some (error r)) \/
   (status r = "error" /\ httpCode r = None /\
    dataCount r = None /\ hasValidData r = VUndefined /\
    is_Some (error r))).

Definition TypeError (msg : string) : JsError :=
  {| err_name := "TypeError"; err_message := msg |}.

Definition SyntaxError (msg : string) : JsError :=
  {| err_name := "SyntaxError"; err_message := msg |}.

(** A site that resets the first connection and then answers 200 with a
    list of two items. *)
Definition world_reset_then_ok : World :=
  {| clock := 1000; requests := 0;
     network := λ _ i,
       match i with
       | O => Breaks 100 (TypeError "fetch failed")
       | _ => Answers 50 200 (Parses 0 (VObj [("list", VArr [VNum 1; VNum 2])]))
       end |}.

(** A site that resets the first connection and then stops answering. *)
Definition world_reset_then_silent : World :=
  {| clock := 0; requests := 0;
     network := λ _ i,
       match i with
       | O => Breaks 30 (TypeError "fetch failed")
       | _ => Silent
       end |}.

(** A site whose 200 responses never parse. *)
Definition world_garbage : World :=
  {| clock := 0; requests := 0;
     network := λ _ _,
       Answers 40 200 (Malformed 2 (SyntaxError "Unexpected token <")) |}.

(** A site that answers 200 with a list of one item in 10 ms. *)
Definition world_fast : World :=
  {| clock := 0; requests := 0;
     network := λ _ _,
       Answers 10 200 (Parses 1 (VObj [("list", VArr [VStr "x"])])) |}.

(** A site that answers 404. *)
Definition world_404 : World :=
  {| clock := 0; requests := 0;
     network := λ _ _, Answers 20 404 (Parses 0 VNull) |}.

(** A site that answers 200 with an object that has no [list]. *)
Definition world_no_list : World :=
  {| clock := 0; requests := 0;
     network := λ _ _, Answers 20 200 (Parses 1 (VObj [("code", VNum 1)])) |}.

(** The fields that the specification expects in every persisted
    result. *)
Definition required_fields : list string :=
  ["key"; "name"; "api"; "status"; "timeMs"; "dataCount"; "hasValidData"].

Definition lists_required_fields (o : list (string * Value)) : bool :=
  forallb (λ k, has_field k o) required_fields.

(** The reading of "the persisted report contains these fields for every
    outcome" for one run. *)
Definition report_lists_all_fields (apiSites : list (string * Site))
    (evs : list (@Event World)) (now : string) (totalTime : Z) : Prop :=
  forall rep st,
    main apiSites evs now totalTime = Some (rep, st) ->
    Forall (λ o, lists_required_fields o = true) (persisted_results rep).

(** ** A sample run *)

Definition registry_demo : list (string * Site) :=
  [ ("ruyi", {| site_name := "Ruyi"; site_api := "http://ruyi" |});
    ("lost", {| site_name := "Lost"; site_api := "http://lost" |});
    ("bare", {| site_name := "Bare"; site_api := "http://bare" |});
    ("fast", {| site_name := "Fast"; site_api := "http://fast" |}) ].

(** With the configured bound of 10 the loop never waits; the sites
    answer in the order 1, 3, 2, 0. *)
Definition schedule_demo : list (@Event World) :=
  [ Dispatch; Dispatch; Dispatch; Dispatch; LoopEnd;
    Settle 1 world_404; Settle 3 world_fast; Settle 2 world_no_list;
    Callback 2; Settle 0 world_reset_then_ok; Callback 1; Callback 3;
    Callback 0; Return ].

(** With a bound of 2 the loop waits after the second, the third and the
    fourth dispatch; the sites answer in the order 1, 2, 0, 3. *)
Definition schedule_two : list (@Event World) :=
  [ Dispatch; Dispatch;
    Settle 1 world_404; Callback 1; Resume;
    Dispatch;
    Settle 2 world_no_list; Settle 0 world_reset_then_ok; Callback 2; Resume;
    Dispatch;
    Callback 0; Resume;
    LoopEnd; Settle 3 world_fast; Callback 3; Return ].

(** The state after the third dispatch under [schedule_two]. *)
Definition state_two : Sched :=
  Eval vm_compute in
    default start (exec probe_task registry_demo 2 (take 6 schedule_two) start).

Definition rows_two : list Row :=
  Eval vm_compute in
    default [] (runWithConcurrency probe_task registry_demo 2 schedule_two).

Definition run_demo : option (Report * Store) :=
  main registry_demo schedule_demo "2025-01-01T00:00:00.000Z" 8123.

Definition report_demo : Report :=
  Eval vm_compute in
    match run_demo with
    | Some (rep, _) => rep
    | None => {| testTime := ""; totalApis := 0; successCount := 0;
                 noDataCount := 0; failedCount := 0; totalTimeMs := 0;
                 report_results := [] |}
    end.

Definition store_demo : Store :=
  Eval vm_compute in
    match run_demo with Some (_, st) => st | None => empty_store end.

(** A store in which the results are not the only array. *)
Definition store_two : Store :=
  {| arrays := {[ 0%nat := rows_two; 4%nat := [] ]}; console := [] |}.

(** An exchange whose latency and body-read time are not negative. *)
Definition punctual (x : Exchange) : Prop :=
  match x with
  | Answers d _ (Parses rd _) | Answers d _ (Malformed rd _) => 0 <= d /\ 0 <= rd
  | Breaks d _ => 0 <= d
  | Silent => True
  end.

(** The state after two dispatches under the configured bound. *)
Definition state_wide : Sched :=
  Eval vm_compute in
    default start
      (exec probe_task registry_demo (concurrency CONFIG)
            (take 2 schedule_demo) start).

(** With a bound of 0 the loop waits after every dispatch. *)
Definition schedule_zero : list (@Event World) :=
  [ Dispatch; Settle 0 world_reset_then_ok; Callback 0; Resume ].

(** A run over an empty registry. *)
Definition run_empty : option (Report * Store) :=
  main [] [LoopEnd; Return] "2025-01-01T00:00:00.000Z" 3.

Definition report_empty : Report :=
  Eval vm_compute in
    match run_empty with
    | Some (rep, _) => rep
    | None => {| testTime := ""; totalApis := 1; successCount := 0;
                 noDataCount := 0; failedCount := 0; totalTimeMs := 0;
                 report_results := [] |}
    end.

Definition store_empty : Store :=
  Eval vm_compute in
    match run_empty with Some (_, st) => st | None => empty_store end.

Definition state_zero : Sched :=
  Eval vm_compute in
    default start (exec probe_task registry_demo 0 schedule_zero start).

(** ** The live progress label *)

(** The colour helpers wrap a text in an ANSI escape sequence. *)
Definition esc : string := String (Ascii.ascii_of_nat 27) "".

Definition green (text : string) : string := esc +:+ "[32m" +:+ text +:+ esc +:+ "[0m".
Definition red (text : string) : string := esc +:+ "[31m" +:+ text +:+ esc +:+ "[0m".
Definition yellow (text : string) : string := esc +:+ "[33m" +:+ text +:+ esc +:+ "[0m".

(** The label that a task prints for its result as soon as it has it. *)
Definition progress_label (r : Outcome) : string :=
  if String.eqb (status r) "success" && truthy (hasValidData r)
  then green "✓ 可用"
  else if String.eqb (status r) "success"
       then yellow "⚠ 无数据"
       else red "✗ 失败".

(** ** The device discovery route *)

Record DLNADevice := {
  dev_name : string;
  dev_host : string;
  dev_location : string;
  dev_server : option string
}.

Definition CACHE_DURATION : Z := 30000.

(** The arguments of a ['response'] event: the headers of the SSDP
    message, its status code and the address it came from. *)
Record Reply := {
  headers : gmap string string;
  statusCode : Z;
  address : string
}.

(** A header read as a condition: it is there and not empty. *)
Definition present (o : option string) : bool :=
  match o with Some s => negb (String.eqb s "") | None => false end.

(** [h || d] for a header [h]. *)
Definition or_else (o : option string) (d : string) : string :=
  match o with
  | Some s => if String.eqb s "" then d else s
  | None => d
  end.

(** [hay.includes(needle)]. *)
Fixpoint includes (needle hay : string) : bool :=
  String.prefix needle hay ||
  match hay with
  | EmptyString => false
  | String _ rest => includes needle rest
  end.

(** The ['response'] handler of [discoverDevices], as a function of the
    [devices] array it pushes to. *)
Definition on_response (devices : list DLNADevice) (r : Reply)
  : list DLNADevice :=
  if (statusCode r =? 200) && present (headers r !! "LOCATION") then
    let st := or_else (headers r !! "ST") "" in
    if includes "MediaRenderer" st || includes "AVTransport" st
       || String.eqb st "ssdp:all" then
      let device :=
        {| dev_name := or_else (headers r !! "SERVER")
                         (or_else (headers r !! "USN")
                                  ("设备 " +:+ address r));
           dev_host := address r;
           dev_location := default "" (headers r !! "LOCATION");
           dev_server := headers r !! "SERVER" |} in
      match List.find (λ d, String.eqb (dev_host d) (dev_host device)) devices with
      | Some _ => devices
      | None => devices ++ [device]
      end
    else devices
  else devices.

(** One call of [discoverDevices]: its [devices] array, the [now] of the
    request that made it, whether its promise is resolved, whether its 5 s
    timer is pending, and whether its client has not been stopped. *)
Record Scan := {
  found : list DLNADevice;
  requested : Z;
  settled : bool;
  timer : bool;
  listening : bool
}.

(** The module state.  [cachedDevices] is a reference: to the empty array
    of the module's start ([None]) or to the array of a scan. *)
Record Server := {
  scans : list Scan;
  cachedDevices : option nat;
  lastScanTime : Z
}.

Definition server_start : Server :=
  {| scans := []; cachedDevices := None; lastScanTime := 0 |}.

(** The elements of the array that [cachedDevices] refers to. *)
Definition cache (sv : Server) : list DLNADevice :=
  match cachedDevices sv with
  | None => []
  | Some id => match scans sv !! id with Some sc => found sc | None => [] end
  end.

(** The body of a JSON response of the route. *)
Record Answer := {
  ans_success : bool;
  ans_devices : list DLNADevice;
  ans_cached : bool
}.

(** What the event loop runs next: a request, or an event of the SSDP
    client or of the timer of a scan. *)
Inductive Request :=
| Post (now : Z) (ssdp : bool)
| Get
| OnResponse (id : nat) (r : Reply)
| OnError (id : nat)
| OnTimeout (id : nat).

(** [POST] after [await discoverDevices()], for the scan [id]. *)
Definition POST_resume (id : nat) (sc : Scan) (sv : Server)
  : Server * Answer :=
  ({| scans := scans sv; cachedDevices := Some id;
      lastScanTime := requested sc |},
   {| ans_success := true; ans_devices := found sc; ans_cached := false |}).

(** Resolving the promise of a scan: the first time it wakes the request
    that waits for it. *)
Definition resolve (id : nat) (before after : Scan) (sv : Server)
  : Server * option Answer :=
  let sv' := {| scans := <[id := after]> (scans sv);
                cachedDevices := cachedDevices sv;
                lastScanTime := lastScanTime sv |} in
  if settled before then (sv', None)
  else let (sv'', ans) := POST_resume id after sv' in (sv'', Some ans).

(** [POST] up to its [await]; [ssdp] tells whether [require('node-ssdp')]
    and [new Client()] succeed. *)
Definition POST (now : Z) (ssdp : bool) (sv : Server)
  : Server * option Answer :=
  if (now - lastScanTime sv <? CACHE_DURATION) && (0 <? Z.of_nat (length (cache sv)))
  then (sv, Some {| ans_success := true; ans_devices := cache sv;
                    ans_cached := true |})
  else
    let id := length (scans sv) in
    if ssdp then
      ({| scans := scans sv ++ [{| found := []; requested := now;
                                  settled := false; timer := true;
                                  listening := true |}];
          cachedDevices := cachedDevices sv;
          lastScanTime := lastScanTime sv |}, None)
    else
      let sc := {| found := []; requested := now; settled := true;
                   timer := false; listening := false |} in
      let (sv', ans) :=
        POST_resume id sc
          {| scans := scans sv ++ [sc];
             cachedDevices := cachedDevices sv;
             lastScanTime := lastScanTime sv |} in
      (sv', Some ans).

Definition GET (sv : Server) : Answer :=
  {| ans_success := true; ans_devices := cache sv; ans_cached := true |}.

Definition handle (q : Request) (sv : Server)
  : option (Server * option Answer) :=
  match q with
  | Post now ssdp => Some (POST now ssdp sv)
  | Get => Some (sv, Some (GET sv))
  | OnResponse id r =>
      sc ← scans sv !! id;
      if listening sc then
        Some ({| scans := <[id := {| found := on_response (found sc) r;
                                     requested := requested sc;
                                     settled := settled sc;
                                     timer := timer sc;
                                     listening := true |}]> (scans sv);
                 cachedDevices := cachedDevices sv;
                 lastScanTime := lastScanTime sv |}, None)
      else None
  | OnError id =>
      sc ← scans sv !! id;
      if listening sc then
        Some (resolve id sc
                {| found := found sc; requested := requested sc;
                   settled := true; timer := false; listening := true |} sv)
      else None
  | OnTimeout id =>
      sc ← scans sv !! id;
      if timer sc then
        Some (resolve id sc
                {| found := found sc; requested := requested sc;
                   settled := true; timer := false; listening := false |} sv)
      else None
  end.

(** A history of the route and the answers it gives, the latest first. *)
Fixpoint serve (qs : list Request) (sv : Server) (out : list Answer)
  : option (Server * list Answer) :=
  match qs with
  | [] => Some (sv, out)
  | q :: rest =>
      match handle q sv with
      | Some (sv', Some ans) => serve rest sv' (ans :: out)
      | Some (sv', None) => serve rest sv' out
      | None => None
      end
  end.

Definition reply (addr st location : string) : Reply :=
  {| headers := {[ "LOCATION" := location; "ST" := st;
                   "USN" := "uuid:" +:+ addr ]};
     statusCode := 200; address := addr |}.

(** Two television sets answer a scan, one of them twice; the scan ends by
    its timer and a second request comes ten seconds after the first. *)
Definition history_demo : list Request :=
  [ Get;
    Post 100000 true;
    OnResponse 0 (reply "10.0.0.7" "urn:schemas-upnp-org:device:MediaRenderer:1"
                      "http://10.0.0.7:49152/description.xml");
    OnResponse 0 (reply "10.0.0.9" "urn:schemas-upnp-org:service:AVTransport:1"
                      "http://10.0.0.9:8080/dmr.xml");
    OnResponse 0 (reply "10.0.0.7" "ssdp:all"
                      "http://10.0.0.7:49152/other.xml");
    OnResponse 0 (reply "10.0.0.3" "upnp:rootdevice" "http://10.0.0.3/root.xml");
    OnTimeout 0;
    Post 110000 true;
    Get ].

(** Device lists as the route keeps them: no host twice, and every device
    with a name and a location. *)
Definition tidy (ds : list DLNADevice) : Prop :=
  NoDup (List.map dev_host ds) /\
  Forall (λ d, dev_name d <> "" /\ dev_location d <> "") ds.

Definition server_demo : Server :=
  Eval vm_compute in
    match serve history_demo server_start [] with
    | Some (sv, _) => sv
    | None => server_start
    end.

Definition answers_demo : list Answer :=
  Eval vm_compute in
    match serve history_demo server_start [] with
    | Some (_, out) => out
    | None => []
    end.

(** The state in which the second request of [history_demo] arrives. *)
Definition server_scanned : Server :=
  Eval vm_compute in
    match serve (take 7 history_demo) server_start [] with
    | Some (sv, _) => sv
    | None => server_start
    end.

(** The scan of [history_demo] after its timer has stopped it. *)
Definition scan_scanned : Scan :=
  Eval vm_compute in
    default {| found := []; requested := 0; settled := false;
               timer := false; listening := true |}
            (scans server_scanned !! 0%nat).

(** What holds of the module state after every history: the lists of all
    scans are tidy, and [cachedDevices] refers to a scan whose promise is
    resolved and whose request time is [lastScanTime]. *)
Record sound (sv : Server) : Prop := {
  s_tidy : Forall (λ sc, tidy (found sc)) (scans sv);
  s_cached : forall id, cachedDevices sv = Some id ->
               exists sc, scans sv !! id = Some sc /\ settled sc = true /\
                          requested sc = lastScanTime sv
}.

(** * Properties *)

(** ** The probe executor *)

(** Case analysis on the tests of the [catch] block. *)
Ltac decide_all :=
  repeat match goal with
         | |- context [string_dec ?x ?y] => destruct (string_dec x y)
         | |- context [Z_lt_dec ?x ?y] => destruct (Z_lt_dec x y)
         end.

Lemma testApi_returned key a retries w result w' :
  attempt key a w = (inr result, w') ->
  testApi key a retries w = (result, w').
Proof.
  intros Hat. simp testApi. rewrite Hat. simpl. reflexivity.
Qed.

Lemma testApi_retry key a retries w e el w' :
  attempt key a w = (inl (e, el), w') ->
  0 < retries -> err_name e <> "AbortError" ->
  testApi key a retries w = testApi key a (retries - 1) w'.
Proof.
  intros Hat Hpos Hne. rewrite testApi_equation_1, Hat. simpl.
  unfold testApi_unfold_clause_1_clause_2.
  do 2 (decide_all; simpl); try reflexivity; try contradiction; lia.
Qed.

Lemma testApi_terminal key a retries w e el w' :
  attempt key a w = (inl (e, el), w') ->
  retries <= 0 \/ err_name e = "AbortError" ->
  testApi key a retries w =
    ({| key := key; api := a; status := "error"; httpCode := None;
        time := el; dataCount := None; hasValidData := VUndefined;
        error := Some (if string_dec (err_name e) "AbortError"
                       then "超时" else err_message e) |}, w').
Proof.
  intros Hat Hstop. rewrite testApi_equation_1, Hat. simpl.
  unfold testApi_unfold_clause_1_clause_2.
  do 2 (decide_all; simpl); try reflexivity; try contradiction.
  destruct Hstop; [lia | contradiction].
Qed.

Ltac split_ifs :=
  repeat match goal with
         | |- context [if ?c && _ then _ else _] => destruct c; simpl
         | |- context [if ?c then _ else _] => destruct c; simpl
         end.

Section Attempt.
Variables key a : string.

Lemma attempt_sent w :
  requests (snd (attempt key a w)) = S (requests w) /\
  network (snd (attempt key a w)) = network w.
Proof.
  unfold attempt, fetch, json.
  destruct (network w _ _) as [d st [rd v|rd e]|d e|]; simpl;
    split_ifs; auto.
Qed.

Lemma attempt_failure w e :
  failure (exchange a w (requests w)) = Some e ->
  exists w', attempt key a w = (inl (e, span (exchange a w (requests w))), w').
Proof.
  unfold attempt, fetch, json, ok, failure, span, exchange.
  destruct (network w _ _) as [d st [rd v|rd e']|d e'|]; simpl;
    split_ifs; intros [= <-]; eexists; repeat f_equal; lia.
Qed.

Lemma attempt_timed_out w :
  timed_out (exchange a w (requests w)) = true ->
  exists w', attempt key a w = (inl (AbortError, timeout CONFIG), w').
Proof.
  unfold attempt, fetch, timed_out, exchange.
  destruct (network w _ _) as [d st b|d e'|]; simpl;
    split_ifs; intros [=]; eexists; repeat f_equal; lia.
Qed.

Lemma attempt_span w :
  match fst (attempt key a w) with
  | inl (_, elapsed) => elapsed = span (exchange a w (requests w))
  | inr r => time r = span (exchange a w (requests w))
  end.
Proof.
  unfold attempt, fetch, json, ok, span, exchange.
  destruct (network w _ _) as [d st [rd v|rd e']|d e'|]; simpl;
    split_ifs; lia.
Qed.
End Attempt.

Section Probe.
Variables key a : string.

(** As long as the budget lasts, attempts that fail before the timer
    fires are followed by another attempt with one retry less. *)
Lemma testApi_skip_failures (k : nat) : forall retries w,
  Z.of_nat k <= retries ->
  (forall i, (i < k)%nat -> exists e,
      failure (exchange a w (requests w + i)) = Some e /\
      err_name e <> "AbortError") ->
  exists w',
    testApi key a retries w = testApi key a (retries - Z.of_nat k) w' /\
    requests w' = (requests w + k)%nat /\
    network w' = network w.
Proof.
  induction k as [|k IH]; intros retries w Hk Hfail.
  - exists w. rewrite Z.sub_0_r, Nat.add_0_r. auto.
  - destruct (Hfail 0%nat) as (e & He & Hname); [lia|].
    rewrite Nat.add_0_r in He.
    destruct (attempt_failure key a w e He) as (w1 & Hat).
    destruct (attempt_sent key a w) as [Hreq Hnet].
    rewrite Hat in Hreq, Hnet. simpl in Hreq, Hnet.
    destruct (IH (retries - 1) w1) as (w' & Heq & Hreq' & Hnet').
    + lia.
    + intros i Hi. destruct (Hfail (S i)) as (e' & He' & Hname'); [lia|].
      exists e'. split; [|exact Hname'].
      unfold exchange in *. rewrite Hnet, Hreq.
      replace (S (requests w) + i)%nat with (requests w + S i)%nat by lia.
      exact He'.
    + exists w'. split; [|split].
      * rewrite (testApi_retry key a retries w e _ w1 Hat) by (lia || auto).
        rewrite Heq. f_equal. lia.
      * lia.
      * congruence.
Qed.

Lemma testApi_last_attempt (n : nat) : forall retries w,
  Z.to_nat retries = n ->
  exists m,
    requests (snd (testApi key a retries w)) = S m /\
    (requests w <= m <= requests w + Z.to_nat retries)%nat /\
    network (snd (testApi key a retries w)) = network w /\
    time (fst (testApi key a retries w)) = span (exchange a w m).
Proof.
  induction n as [n IH] using lt_wf_ind. intros retries w Hn.
  pose proof (attempt_span key a w) as Hspan.
  destruct (attempt_sent key a w) as [Hreq Hnet].
  destruct (attempt key a w) as [[[e el]|r] w1] eqn:Hat;
    simpl in Hspan, Hreq, Hnet.
  - destruct (Z_lt_dec 0 retries) as [Hpos|Hzero];
      [destruct (string_dec (err_name e) "AbortError") as [Habort|Hother]|].
    + rewrite (testApi_terminal key a retries w e el w1 Hat) by auto.
      exists (requests w). simpl. repeat split; auto; lia.
    + rewrite (testApi_retry key a retries w e el w1 Hat) by auto.
      destruct (IH (Z.to_nat (retries - 1)) ltac:(lia) (retries - 1) w1 eq_refl)
        as (m & Hm & Hrange & Hnet' & Htime).
      exists m. unfold exchange in *. rewrite Hnet in Htime.
      repeat split; auto; try lia. congruence.
    + rewrite (testApi_terminal key a retries w e el w1 Hat) by (left; lia).
      exists (requests w). simpl. repeat split; auto; lia.
  - rewrite (testApi_returned key a retries w r w1 Hat).
    exists (requests w). simpl. repeat split; auto; lia.
Qed.
End Probe.

(** C1, as stated, fails: after a connection reset that took 100 ms and a
    retry answered in 50 ms, the probe reports 50 ms although 150 ms have
    passed since the start of the first attempt. *)
Lemma elapsed_covers_all_attempts_fails :
  ~ elapsed_covers_all_attempts "ruyi" "http://ruyi" 1 world_reset_then_ok.
Proof.
  unfold elapsed_covers_all_attempts. vm_compute. intros H.
  specialize (H ltac:(lia)). discriminate H.
Qed.

(** C1, amended: the [time] of every probe result is the time taken by the
    last attempt alone, measured from the start of that attempt; the
    attempts before it are not counted. *)
Theorem testApi_time_is_last_attempt (key a : string) (retries : Z) (w : World) :
  exists m,
    requests (snd (testApi key a retries w)) = S m /\
    (requests w <= m <= requests w + Z.to_nat retries)%nat /\
    time (fst (testApi key a retries w)) = span (exchange a w m).
Proof.
  destruct (testApi_last_attempt key a _ retries w eq_refl)
    as (m & Hm & Hrange & _ & Htime).
  exists m. auto.
Qed.

(** C2: an attempt that the timer aborts ends the probe, whatever is left
    of the retry budget: the result has status ["error"] and the timeout
    message, and no request follows the aborted one.  With [k = 0] the
    first attempt times out and the probe has made exactly one request. *)
Theorem testApi_timeout_terminal
    (key a : string) (retries : Z) (w : World) (k : nat) :
  k = 0%nat \/ Z.of_nat k <= retries ->
  (forall i, (i < k)%nat -> exists e,
      failure (exchange a w (requests w + i)) = Some e /\
      err_name e <> "AbortError") ->
  timed_out (exchange a w (requests w + k)) = true ->
  status (fst (testApi key a retries w)) = "error" /\
  error (fst (testApi key a retries w)) = Some "超时" /\
  httpCode (fst (testApi key a retries w)) = None /\
  requests (snd (testApi key a retries w)) = S (requests w + k).
Proof.
  intros Hk Hfail Hout.
  assert (exists w', testApi key a retries w
                     = testApi key a (retries - Z.of_nat k) w' /\
                     requests w' = (requests w + k)%nat /\
                     network w' = network w) as (w' & Heq & Hreq & Hnet).
  { destruct Hk as [->|Hk].
    - exists w. rewrite Z.sub_0_r, Nat.add_0_r. auto.
    - apply testApi_skip_failures; assumption. }
  rewrite Heq.
  assert (timed_out (exchange a w' (requests w')) = true) as Hout'.
  { unfold exchange in *. rewrite Hnet, Hreq. exact Hout. }
  destruct (attempt_timed_out key a w' Hout') as (w1 & Hat).
  destruct (attempt_sent key a w') as [Hreq1 _]. rewrite Hat in Hreq1.
  rewrite (testApi_terminal key a _ w' _ _ w1 Hat) by (right; reflexivity).
  simpl in *. repeat split; auto. lia.
Qed.

Lemma testApi_timeout_terminal_witness :
  status (fst (testApi "ruyi" "http://ruyi" 3 world_reset_then_silent)) = "error" /\
  error (fst (testApi "ruyi" "http://ruyi" 3 world_reset_then_silent)) = Some "超时" /\
  httpCode (fst (testApi "ruyi" "http://ruyi" 3 world_reset_then_silent)) = None /\
  requests (snd (testApi "ruyi" "http://ruyi" 3 world_reset_then_silent)) = 2%nat.
Proof.
  apply (testApi_timeout_terminal "ruyi" "http://ruyi" 3 world_reset_then_silent 1).
  - right. lia.
  - intros i Hi. exists (TypeError "fetch failed").
    destruct i as [|i]; [split; [reflexivity | discriminate] | lia].
  - reflexivity.
Defined.

(** C3: when every attempt fails before the timer fires (a transport
    error, or a 2xx body that does not parse), a probe with a budget of
    [retries >= 0] returns after [retries + 1] requests, the k-th of them
    made with [retries - k] retries left, and its result has status
    ["error"] and the message of the last error. *)
Theorem testApi_network_error_after_retries
    (key a : string) (retries : Z) (w : World) :
  0 <= retries ->
  (forall i, (i <= Z.to_nat retries)%nat -> exists e,
      failure (exchange a w (requests w + i)) = Some e /\
      err_name e <> "AbortError") ->
  (forall k, (k <= Z.to_nat retries)%nat -> exists w',
      testApi key a retries w = testApi key a (retries - Z.of_nat k) w' /\
      requests w' = (requests w + k)%nat) /\
  requests (snd (testApi key a retries w))
    = (requests w + Z.to_nat retries + 1)%nat /\
  status (fst (testApi key a retries w)) = "error" /\
  httpCode (fst (testApi key a retries w)) = None /\
  exists e,
    failure (exchange a w (requests w + Z.to_nat retries)) = Some e /\
    error (fst (testApi key a retries w)) = Some (err_message e).
Proof.
  intros Hpos Hfail. split.
  { intros k Hk.
    destruct (testApi_skip_failures key a k retries w)
      as (w' & Heq & Hreq & _); [lia | |eauto].
    intros i Hi. apply Hfail. lia. }
  destruct (testApi_skip_failures key a (Z.to_nat retries) retries w)
    as (w' & Heq & Hreq & Hnet).
  { lia. }
  { intros i Hi. apply Hfail. lia. }
  rewrite Heq.
  destruct (Hfail (Z.to_nat retries)) as (e & He & Hname); [lia|].
  assert (failure (exchange a w' (requests w')) = Some e) as He'.
  { unfold exchange in *. rewrite Hnet, Hreq. exact He. }
  destruct (attempt_failure key a w' e He') as (w1 & Hat).
  destruct (attempt_sent key a w') as [Hreq1 _]. rewrite Hat in Hreq1.
  rewrite (testApi_terminal key a _ w' _ _ w1 Hat) by (left; lia).
  simpl in *. repeat split; auto; [lia|].
  exists e. split; [exact He|].
  destruct (string_dec (err_name e) "AbortError"); [contradiction | reflexivity].
Qed.

Lemma testApi_network_error_after_retries_witness :
  (forall k, (k <= Z.to_nat 2)%nat -> exists w',
      testApi "ruyi" "http://ruyi" 2 world_garbage
      = testApi "ruyi" "http://ruyi" (2 - Z.of_nat k) w' /\
      requests w' = (requests world_garbage + k)%nat) /\
  requests (snd (testApi "ruyi" "http://ruyi" 2 world_garbage))
    = (requests world_garbage + Z.to_nat 2 + 1)%nat /\
  status (fst (testApi "ruyi" "http://ruyi" 2 world_garbage)) = "error" /\
  httpCode (fst (testApi "ruyi" "http://ruyi" 2 world_garbage)) = None /\
  exists e,
    failure (exchange "http://ruyi" world_garbage
                      (requests world_garbage + Z.to_nat 2)) = Some e /\
    error (fst (testApi "ruyi" "http://ruyi" 2 world_garbage))
      = Some (err_message e).
Proof.
  apply (testApi_network_error_after_retries "ruyi" "http://ruyi" 2 world_garbage).
  - lia.
  - intros i _. exists (SyntaxError "Unexpected token <").
    split; [reflexivity | discriminate].
Defined.

(** C8: a response whose status is outside 200-299 ends the probe at once:
    the result has status ["http_error"] and carries the numeric status,
    and the probe has made one request, whatever its retry budget. *)
Theorem testApi_http_error_terminal
    (key a : string) (retries : Z) (w : World) (d st : Z) (b : Body) :
  exchange a w (requests w) = Answers d st b ->
  d < timeout CONFIG ->
  is_2xx st = false ->
  status (fst (testApi key a retries w)) = "http_error" /\
  httpCode (fst (testApi key a retries w)) = Some st /\
  error (fst (testApi key a retries w)) = Some ("HTTP " +:+ show_Z st) /\
  requests (snd (testApi key a retries w)) = S (requests w).
Proof.
  intros Hx Hd Hst.
  assert (exists el, attempt key a w =
            (inr {| key := key; api := a; status := "http_error";
                    httpCode := Some st; time := el; dataCount := None;
                    hasValidData := VUndefined;
                    error := Some ("HTTP " +:+ show_Z st) |},
             tick d (sent w))) as (el & Hat).
  { unfold attempt, fetch, ok. unfold exchange in Hx. rewrite Hx.
    apply Z.ltb_lt in Hd. rewrite Hd. simpl. rewrite Hst. eauto. }
  rewrite (testApi_returned key a retries w _ _ Hat). simpl. auto.
Qed.

Lemma testApi_http_error_terminal_witness :
  status (fst (testApi "ruyi" "http://ruyi" 1 world_404)) = "http_error" /\
  httpCode (fst (testApi "ruyi" "http://ruyi" 1 world_404)) = Some 404 /\
  error (fst (testApi "ruyi" "http://ruyi" 1 world_404)) = Some "HTTP 404" /\
  requests (snd (testApi "ruyi" "http://ruyi" 1 world_404)) = 1%nat.
Proof.
  apply (testApi_http_error_terminal "ruyi" "http://ruyi" 1 world_404
           20 404 (Parses 0 VNull)).
  - reflexivity.
  - reflexivity.
  - reflexivity.
Defined.

(** C10: a 2xx response whose parsed body has no array under [list] (no
    such field, a [null] body, a value that is not an array) gives a
    result with status ["success"], a count of 0 and a [hasValidData] that
    reads as false wherever the script tests it (it is the falsy operand
    of the [&&] chain); the row falls in the no-data bucket and not among
    the failures, and the probe is not retried. *)
Theorem testApi_no_list_is_no_data
    (key a : string) (retries : Z) (w : World) (d st rd : Z) (data : Value) :
  exchange a w (requests w) = Answers d st (Parses rd data) ->
  d < timeout CONFIG ->
  is_2xx st = true ->
  isArray (get_list data) = false ->
  status (fst (testApi key a retries w)) = "success" /\
  dataCount (fst (testApi key a retries w)) = Some 0 /\
  truthy (hasValidData (fst (testApi key a retries w))) = false /\
  (forall n, is_noData {| result := fst (testApi key a retries w); name := n |} = true) /\
  (forall n, is_failed {| result := fst (testApi key a retries w); name := n |} = false) /\
  requests (snd (testApi key a retries w)) = S (requests w).
Proof.
  intros Hx Hd Hst Harr.
  assert (truthy (js_and (js_and data (get_list data)) (VBool false)) = false)
    as Hfalsy.
  { unfold js_and.
    destruct (truthy data) eqn:Hdata;
      [destruct (truthy (get_list data)) eqn:Hlist|];
      rewrite ?Hdata, ?Hlist; reflexivity. }
  assert (exists r w1, attempt key a w = (inr r, w1) /\
            status r = "success" /\ dataCount r = Some 0 /\
            truthy (hasValidData r) = false /\
            requests w1 = S (requests w)) as (r & w1 & Hat & Hs & Hc & Hv & Hr).
  { unfold attempt, fetch, json, ok. unfold exchange in Hx. rewrite Hx.
    apply Z.ltb_lt in Hd. rewrite Hd. simpl. rewrite Hst, Harr, Hfalsy.
    eexists _, _. split; [reflexivity|]. simpl.
    unfold js_and at 1. rewrite Hfalsy. auto. }
  rewrite (testApi_returned key a retries w r w1 Hat).
  unfold is_noData, is_failed. simpl. rewrite Hs, Hv. repeat split; auto.
Qed.

Lemma testApi_no_list_is_no_data_witness :
  status (fst (testApi "ruyi" "http://ruyi" 1 world_no_list)) = "success" /\
  dataCount (fst (testApi "ruyi" "http://ruyi" 1 world_no_list)) = Some 0 /\
  truthy (hasValidData (fst (testApi "ruyi" "http://ruyi" 1 world_no_list))) = false /\
  (forall n, is_noData {| result := fst (testApi "ruyi" "http://ruyi" 1 world_no_list); name := n |} = true) /\
  (forall n, is_failed {| result := fst (testApi "ruyi" "http://ruyi" 1 world_no_list); name := n |} = false) /\
  requests (snd (testApi "ruyi" "http://ruyi" 1 world_no_list)) = 1%nat.
Proof.
  apply (testApi_no_list_is_no_data "ruyi" "http://ruyi" 1 world_no_list
           20 200 1 (VObj [("code", VNum 1)])).
  - reflexivity.
  - reflexivity.
  - reflexivity.
  - reflexivity.
Defined.

(** ** The bounded scheduler *)

Section SchedulerFacts.
Context {Task Env A : Type}.
Variable perform : Task -> Env -> A.
Variable tasks : list Task.
Variable limit : Z.

Local Abbreviation step := (step perform tasks limit).
Local Abbreviation exec := (exec perform tasks limit).
Local Abbreviation consistent := (consistent perform tasks).
Local Abbreviation admitted := (@admitted A limit).

Ltac fields := cbn [next results executing inflight ready fulfilled phase].

Lemma start_consistent : consistent start.
Proof.
  split; simpl; try done.
  - lia.
  - intros i Hi. lia.
Qed.

Lemma dispatch_consistent s s' :
  consistent s -> dispatch tasks limit s = Some s' -> consistent s'.
Proof.
  intros [Hex Hap Hres Hnext Hin Hrd Hfu Hcov Hph]. unfold dispatch.
  destruct (phase s) eqn:Hphase; try done.
  destruct (tasks !! next s) as [t|] eqn:Ht; [|done].
  intros [= <-]. apply lookup_lt_Some in Ht.
  split; fields.
  - rewrite Hex. set_solver.
  - intros i [->%elem_of_singleton|Hi]%elem_of_union; [|by apply Hap].
    destruct (ready s !! next s) as [x|] eqn:Hx; [|done].
    apply Hrd in Hx as [Hlt _]. lia.
  - rewrite Hres, seq_S. done.
  - lia.
  - intros i [->%elem_of_singleton|Hi%Hin]%elem_of_union; lia.
  - intros i x [Hlt Hfrom]%Hrd. split; [lia | done].
  - done.
  - intros i Hi. destruct (decide (i = next s)) as [->|Hne].
    + left. set_solver.
    + destruct (Hcov i) as [?|?]; [lia | left; set_solver | by right].
  - destruct (limit <=? _); [set_solver | done].
Qed.

Lemma settle_consistent i e s s' :
  consistent s -> settle perform tasks i e s = Some s' -> consistent s'.
Proof.
  intros [Hex Hap Hres Hnext Hin Hrd Hfu Hcov Hph]. unfold settle.
  destruct (tasks !! i) as [t|] eqn:Ht; [|done].
  destruct (suspended (phase s)) eqn:Hsus; [|done].
  case_bool_decide as Hi; [|done]. simpl. intros [= <-].
  split; fields; try done.
  - rewrite Hex, dom_insert_L. apply set_eq. intros j.
    destruct (decide (j = i)); set_solver.
  - intros j [Hj Hne%not_elem_of_singleton]%elem_of_difference.
    rewrite lookup_insert_ne by done. by apply Hap.
  - intros j Hj. apply Hin. set_solver.
  - intros j x. rewrite lookup_insert. case_decide as Hji.
    + intros [= <-]. subst j. split; [by apply Hin|]. by exists t, e.
    + apply Hrd.
  - intros j Hj. destruct (decide (j = i)) as [->|Hne].
    + right. left. rewrite lookup_insert_eq. by eexists.
    + rewrite lookup_insert_ne by done.
      destruct (Hcov j Hj) as [?|?]; [left; set_solver | by right].
Qed.

Lemma callback_consistent i s s' :
  consistent s -> callback i s = Some s' -> consistent s'.
Proof.
  intros [Hex Hap Hres Hnext Hin Hrd Hfu Hcov Hph]. unfold callback.
  destruct (ready s !! i) as [x|] eqn:Hx; [|done].
  destruct (suspended (phase s)) eqn:Hsus; [|done]. intros [= <-].
  split; fields; try done.
  - rewrite Hex, dom_delete_L. apply set_eq. intros j.
    destruct (decide (j = i)) as [->|Hne]; [|set_solver].
    assert (i ∉ inflight s); [|set_solver].
    intros Hi%Hap. congruence.
  - intros j Hj. destruct (decide (j = i)) as [->|Hne].
    + apply lookup_delete_eq.
    + rewrite lookup_delete_ne by done. by apply Hap.
  - intros j y. rewrite lookup_delete. case_decide; [done | apply Hrd].
  - intros j y. rewrite lookup_insert. case_decide as Hji.
    + intros [= <-]. subst j. by apply Hrd in Hx as [_ ?].
    + apply Hfu.
  - intros j Hj. destruct (decide (j = i)) as [->|Hne].
    + right. right. rewrite lookup_insert_eq. by eexists.
    + rewrite lookup_delete_ne, lookup_insert_ne by done. by apply Hcov.
  - destruct (phase s); done.
Qed.

Lemma step_consistent ev s s' :
  consistent s -> step ev s = Some s' -> consistent s'.
Proof.
  intros Hs. destruct ev as [|i e|i| | |]; simpl.
  - by apply dispatch_consistent.
  - by apply settle_consistent.
  - by apply callback_consistent.
  - destruct Hs. destruct (phase s) as [|[]| |]; try done.
    intros [= <-]. by split.
  - destruct Hs as [Hex Hap Hres Hnext Hin Hrd Hfu Hcov Hph].
    destruct (phase s); try done.
    destruct (tasks !! next s) eqn:Ht; [done|].
    intros [= <-]. split; simpl; try done.
    apply lookup_ge_None in Ht. lia.
  - destruct Hs as [Hex Hap Hres Hnext Hin Hrd Hfu Hcov Hph].
    destruct (phase s); try done.
    destruct (mapM _ _) as [out|] eqn:Hout; [|done].
    simpl. intros [= <-]. split; simpl; try done.
    apply mapM_Some in Hout. rewrite Hres, Hph in Hout.
    apply Forall2_same_length_lookup. split.
    + apply Forall2_length in Hout. by rewrite length_seq in Hout.
    + intros j t x Ht Hj.
      destruct (Forall2_lookup_r _ _ _ _ _ Hout Hj) as (k & Hk & Hfx).
      apply lookup_seq in Hk as [-> _]. simpl in Hfx.
      apply Hfu in Hfx as (t' & e & Ht' & ->).
      exists e. congruence.
Qed.

Lemma exec_consistent evs : forall s s',
  consistent s -> exec evs s = Some s' -> consistent s'.
Proof.
  induction evs as [|ev evs IH]; intros s s' Hs; simpl.
  - by intros [= <-].
  - destruct (step ev s) as [s1|] eqn:Hstep; [|done]. simpl.
    apply IH. by eapply step_consistent.
Qed.

Lemma size_add_one (i : nat) (X : gset nat) :
  (size ({[i]} ∪ X) <= S (size X))%nat.
Proof.
  rewrite size_union_alt, size_singleton.
  assert (size (X ∖ {[i]}) <= size X)%nat; [|lia].
  apply subseteq_size. set_solver.
Qed.

Lemma size_remove_one (i : nat) (X : gset nat) :
  i ∈ X -> size X = S (size (X ∖ {[i]})).
Proof.
  intros Hi. rewrite size_difference by set_solver.
  rewrite size_singleton.
  assert (size X ≠ 0)%nat; [|lia].
  apply size_non_empty_iff. set_solver.
Qed.

Lemma step_admitted ev s s' :
  consistent s -> admitted s -> step ev s = Some s' -> admitted s'.
Proof.
  intros Hs. unfold admitted at 1.
  destruct ev as [|i e|i| | |]; simpl.
  - unfold dispatch. destruct (phase s); try done.
    destruct (tasks !! next s); [|done]. intros Hadm [= <-].
    unfold admitted; fields.
    pose proof (size_add_one (next s) (executing s)).
    destruct (limit <=? _) eqn:Hfull; [lia|].
    apply Z.leb_gt in Hfull. lia.
  - unfold settle. destruct (tasks !! i); [|done].
    destruct (suspended (phase s)); [|done].
    case_bool_decide; [|done]. simpl. intros Hadm [= <-]. exact Hadm.
  - unfold callback. destruct (ready s !! i) as [x|] eqn:Hx; [|done].
    destruct (suspended (phase s)) eqn:Hsus; [|done]. intros Hadm [= <-].
    assert (i ∈ executing s) as Hi.
    { rewrite (c_executing _ _ _ Hs). apply elem_of_union_r, elem_of_dom.
      by eexists. }
    apply size_remove_one in Hi. unfold admitted; fields.
    revert Hadm Hsus.
    destruct (phase s) as [|[]| |]; simpl; intros; try done; lia.
  - destruct (phase s) as [|[]| |]; try done. by intros Hadm [= <-].
  - destruct (phase s); try done. destruct (tasks !! next s); [done|].
    intros Hadm [= <-]. unfold admitted. simpl. lia.
  - destruct (phase s); try done. destruct (mapM _ _); [|done].
    simpl. intros Hadm [= <-]. exact Hadm.
Qed.

Lemma exec_admitted evs : forall s s',
  consistent s -> admitted s -> exec evs s = Some s' -> admitted s'.
Proof.
  induction evs as [|ev evs IH]; intros s s' Hs Hadm; simpl.
  - by intros [= <-].
  - destruct (step ev s) as [s1|] eqn:Hstep; [|done]. simpl.
    apply IH; [by eapply step_consistent | by eapply step_admitted].
Qed.

Lemma exec_app evs1 evs2 s s1 :
  exec evs1 s = Some s1 -> exec (evs1 ++ evs2) s = exec evs2 s1.
Proof.
  revert s. induction evs1 as [|ev evs1 IH]; intros s; simpl.
  - by intros [= <-].
  - destruct (step ev s) as [s'|]; [|done]. simpl. apply IH.
Qed.

(** Progress: until the call has returned some event is enabled and
    brings the return nearer. *)
Lemma step_enabled (e0 : Env) s :
  consistent s -> (forall out, phase s <> Returned out) ->
  exists ev s1, step ev s = Some s1 /\
                (remaining tasks s1 < remaining tasks s)%nat.
Proof.
  intros Hs Hrun.
  assert (suspended (phase s) = true ->
          exists ev s1, step ev s = Some s1 /\
                (remaining tasks s1 < remaining tasks s)%nat \/
          (ready s = ∅ /\ inflight s = ∅)) as Hwait.
  { intros Hsus.
    destruct (map_choose_or_empty (ready s)) as [(i & x & Hx)|Hready].
    { exists (Callback i). eexists. left. simpl. unfold callback.
      rewrite Hx, Hsus. split; [reflexivity|].
      unfold remaining; fields.
      rewrite map_size_delete_Some by eauto.
      assert (size (ready s) ≠ 0%nat).
      { apply map_size_non_empty_iff. intros Hem. rewrite Hem in Hx. done. }
      destruct (phase s) as [|[]| |]; simpl in *; try done; lia. }
    destruct (set_choose_or_empty (inflight s)) as [[i Hi]|Hfly].
    { pose proof (c_inflight _ _ _ Hs i Hi) as Hlt.
      pose proof (c_next _ _ _ Hs) as Hle.
      destruct (lookup_lt_is_Some_2 tasks i) as [t Ht]; [lia|].
      exists (Settle i e0). eexists. left. simpl. unfold settle.
      rewrite Ht, Hsus, bool_decide_eq_true_2 by done.
      split; [reflexivity|].
      unfold remaining; fields.
      rewrite map_size_insert_None by (by apply (c_apart _ _ _ Hs)).
      pose proof (size_remove_one i (inflight s) Hi). lia. }
    exists Dispatch, s. right. split; [done|]. by apply leibniz_equiv. }
  destruct (phase s) as [|[]| |out] eqn:Hph.
  - destruct (tasks !! next s) as [t|] eqn:Ht.
    + exists Dispatch. eexists. simpl. unfold dispatch. rewrite Hph, Ht.
      split; [reflexivity|]. unfold remaining; fields. rewrite Hph.
      apply lookup_lt_Some in Ht.
      pose proof (size_add_one (next s) (inflight s)).
      destruct (limit <=? _); lia.
    + exists LoopEnd. eexists. simpl. rewrite Hph, Ht.
      split; [reflexivity|]. unfold remaining. simpl. rewrite Hph. lia.
  - exists Resume. eexists. simpl. rewrite Hph.
    split; [reflexivity|]. unfold remaining. simpl. rewrite Hph. lia.
  - destruct (Hwait eq_refl) as (ev & s1 & [Hstep|[Hready Hfly]]); [eauto|].
    pose proof (c_phase _ _ _ Hs) as Hne. rewrite Hph in Hne.
    rewrite (c_executing _ _ _ Hs), Hready, Hfly in Hne. set_solver.
  - destruct (Hwait eq_refl) as (ev & s1 & [Hstep|[Hready Hfly]]); [eauto|].
    assert (is_Some (mapM (fun p => fulfilled s !! p) (results s)))
      as [out Hout].
    { apply mapM_is_Some, Forall_lookup. intros k i Hk. simpl.
      rewrite (c_results _ _ _ Hs) in Hk. apply lookup_seq in Hk as [-> Hi].
      destruct (c_covered _ _ _ Hs _ Hi) as [Hin|[Hin|Hin]]; [| |done].
      - rewrite Hfly in Hin. set_solver.
      - rewrite Hready, lookup_empty in Hin. by destruct Hin. }
    exists Return. eexists. simpl. rewrite Hph, Hout. simpl.
    split; [reflexivity|]. unfold remaining. simpl. rewrite Hph. lia.
  - by destruct (Hrun out).
Qed.

Lemma exec_can_return (e0 : Env) (n : nat) : forall s,
  (remaining tasks s <= n)%nat -> consistent s ->
  exists evs s' out, exec evs s = Some s' /\ phase s' = Returned out.
Proof.
  induction n as [n IH] using lt_wf_ind. intros s Hn Hs.
  destruct (phase s) as [|b| |out] eqn:Hph;
    [| | |by exists [], s, out].
  all: destruct (step_enabled e0 s Hs) as (ev & s1 & Hstep & Hless);
    [by rewrite Hph|].
  all: destruct (IH (remaining tasks s1) ltac:(lia) s1 (le_n _))
      as (evs & s' & out & Hexec & Hret);
    [by eapply step_consistent|].
  all: exists (ev :: evs), s', out; simpl; rewrite Hstep; done.
Qed.
End SchedulerFacts.

(** C4: with a bound of at least one, in every state that a call of
    [runWithConcurrency] can reach, under any order of completions, the
    promises in [executing] number at most [limit], and the tasks that
    are started and not settled are among them. *)
Theorem runWithConcurrency_inflight_bound
    {Task Env A : Type} (perform : Task -> Env -> A) (tasks : list Task)
    (limit : Z) (evs : list Event) (s : Sched) :
  1 <= limit ->
  exec perform tasks limit evs start = Some s ->
  inflight s ⊆ executing s /\
  Z.of_nat (size (inflight s)) <= limit /\
  Z.of_nat (size (executing s)) <= limit.
Proof.
  intros Hlimit Hexec.
  pose proof (exec_consistent perform tasks limit evs _ _
                (start_consistent perform tasks) Hexec) as Hs.
  assert (admitted limit s) as Hadm.
  { eapply exec_admitted; [apply start_consistent| |exact Hexec].
    unfold admitted, start. cbn [phase executing]. rewrite size_empty. lia. }
  assert (inflight s ⊆ executing s) as Hsub.
  { rewrite (c_executing _ _ _ Hs). set_solver. }
  apply subseteq_size in Hsub.
  assert (Z.of_nat (size (executing s)) <= limit).
  { unfold admitted in Hadm. destruct (phase s) as [|[]| |]; lia. }
  split; [rewrite (c_executing _ _ _ Hs); set_solver | lia].
Qed.

(** ** The shape of a probe result *)

Section Shape.
Variables key_ a : string.

(** Induction along the attempts of a probe. *)
Lemma testApi_cases (P : Z -> World -> Outcome * World -> Prop) :
  (forall retries w r w',
      attempt key_ a w = (inr r, w') -> P retries w (r, w')) ->
  (forall retries w e elapsed w',
      attempt key_ a w = (inl (e, elapsed), w') ->
      retries <= 0 \/ err_name e = "AbortError" ->
      P retries w
        ({| key := key_; api := a; status := "error"; httpCode := None;
            time := elapsed; dataCount := None; hasValidData := VUndefined;
            error := Some (if string_dec (err_name e) "AbortError"
                           then "超时" else err_message e) |}, w')) ->
  (forall retries w e elapsed w',
      attempt key_ a w = (inl (e, elapsed), w') ->
      0 < retries -> err_name e <> "AbortError" ->
      P (retries - 1) w' (testApi key_ a (retries - 1) w') ->
      P retries w (testApi key_ a (retries - 1) w')) ->
  forall retries w, P retries w (testApi key_ a retries w).
Proof.
  intros Hret Hstop Hretry retries.
  remember (Z.to_nat retries) as n eqn:Hn. revert retries Hn.
  induction n as [n IH] using lt_wf_ind. intros retries Hn w.
  destruct (attempt key_ a w) as [[[e el]|r] w1] eqn:Hat.
  - destruct (Z_lt_dec 0 retries) as [Hpos|Hzero];
      [destruct (string_dec (err_name e) "AbortError") as [Habort|Hother]|].
    + rewrite (testApi_terminal key_ a retries w e el w1 Hat) by auto.
      apply Hstop; auto.
    + rewrite (testApi_retry key_ a retries w e el w1 Hat) by auto.
      eapply Hretry; eauto.
      apply (IH (Z.to_nat (retries - 1))); [lia | reflexivity].
    + rewrite (testApi_terminal key_ a retries w e el w1 Hat) by (left; lia).
      apply Hstop; [auto | left; lia].
  - rewrite (testApi_returned key_ a retries w r w1 Hat). by apply Hret.
Qed.

Lemma testApi_well_shaped retries w :
  well_shaped key_ a (fst (testApi key_ a retries w)).
Proof.
  apply (testApi_cases (fun _ _ r => well_shaped key_ a (fst r))).
  - intros _ w0 r w' Hat. unfold attempt, fetch, json in Hat.
    unfold well_shaped.
    destruct (network w0 _ _) as [d st [rd v|rd e]|d e|]; simpl in Hat;
      repeat match type of Hat with
             | context [if ?c then _ else _] => destruct c; simpl in Hat
             end;
      inversion Hat; subst; simpl; naive_solver.
  - intros. unfold well_shaped. simpl. naive_solver.
  - auto.
Qed.
End Shape.

(** ** The report stage *)

Section Sorting.
Lemma sort_insert_perm cmp x l : Permutation (sort_insert cmp x l) (x :: l).
Proof.
  induction l as [|y l IH]; simpl; [done|].
  destruct (cmp x y <=? 0); [done|].
  rewrite IH. apply perm_swap.
Qed.

Lemma stable_sort_perm cmp l : Permutation (stable_sort cmp l) l.
Proof.
  induction l as [|x l IH]; simpl; [done|].
  rewrite sort_insert_perm. by constructor.
Qed.

Lemma stable_sort_length cmp l : length (stable_sort cmp l) = length l.
Proof. apply Permutation_length, stable_sort_perm. Qed.

Lemma sort_insert_sorted x l :
  StronglySorted (fun r1 r2 : Row => time r1 <= time r2) l ->
  StronglySorted (fun r1 r2 : Row => time r1 <= time r2)
                 (sort_insert by_time x l).
Proof.
  induction 1 as [|y l Hl IH Hy]; simpl.
  - repeat constructor.
  - unfold by_time at 1. destruct (time x - time y <=? 0) eqn:Hcmp.
    + apply Z.leb_le in Hcmp. constructor; [by constructor|].
      constructor; [lia|].
      eapply Forall_impl; [exact Hy|]. simpl. intros z Hz. lia.
    + apply Z.leb_gt in Hcmp. constructor; [exact IH|].
      apply Permutation_Forall with (x :: l);
        [symmetry; apply sort_insert_perm|].
      constructor; [lia | exact Hy].
Qed.

Lemma stable_sort_sorted l :
  StronglySorted (fun r1 r2 : Row => time r1 <= time r2)
                 (stable_sort by_time l).
Proof.
  induction l as [|x l IH]; simpl; [constructor|].
  by apply sort_insert_sorted.
Qed.

(** Rows with equal times keep the order they had. *)
Lemma sort_insert_stable t x l :
  List.filter (fun r : Row => time r =? t) (sort_insert by_time x l)
  = List.filter (fun r : Row => time r =? t) (x :: l).
Proof.
  induction l as [|y l IH]; [done|]. simpl.
  unfold by_time at 1. destruct (time x - time y <=? 0) eqn:Hcmp; [done|].
  apply Z.leb_gt in Hcmp. simpl in *. rewrite IH.
  destruct (time x =? t) eqn:Hx, (time y =? t) eqn:Hy; try done.
  apply Z.eqb_eq in Hx, Hy. lia.
Qed.

Lemma stable_sort_stable t l :
  List.filter (fun r : Row => time r =? t) (stable_sort by_time l)
  = List.filter (fun r : Row => time r =? t) l.
Proof.
  induction l as [|x l IH]; [done|]. simpl.
  rewrite sort_insert_stable. simpl. by rewrite IH.
Qed.
End Sorting.

(** Every row is in exactly one of the three buckets. *)
Lemma buckets_exclusive (r : Row) :
  (is_successful r = true /\ is_noData r = false /\ is_failed r = false) \/
  (is_successful r = false /\ is_noData r = true /\ is_failed r = false) \/
  (is_successful r = false /\ is_noData r = false /\ is_failed r = true).
Proof.
  unfold is_successful, is_noData, is_failed.
  destruct (String.eqb (status r) "success"), (truthy (hasValidData r));
    simpl; auto.
Qed.

Lemma buckets_count (xs : list Row) :
  (length (List.filter is_successful xs) + length (List.filter is_noData xs)
   + length (List.filter is_failed xs) = length xs)%nat.
Proof.
  induction xs as [|r xs IH]; simpl; [done|].
  destruct (buckets_exclusive r) as [(-> & -> & ->)|[(-> & -> & ->)|(-> & -> & ->)]];
    simpl; lia.
Qed.

(** What [summarize] returns and what it leaves in the store: the array it
    was given is as before, and the sorted bucket has gone to the
    console. *)
Lemma summarize_spec (now : string) (totalTime : Z) (a : nat) (st : Store)
    (xs : list Row) :
  arrays st !! a = Some xs ->
  fst (summarize now totalTime a st) =
    {| testTime := now;
       totalApis := Z.of_nat (length xs);
       successCount := Z.of_nat (length (List.filter is_successful xs));
       noDataCount := Z.of_nat (length (List.filter is_noData xs));
       failedCount := Z.of_nat (length (List.filter is_failed xs));
       totalTimeMs := totalTime;
       report_results := List.map report_entry xs |} /\
  arrays (snd (summarize now totalTime a st)) !! a = Some xs /\
  console (snd (summarize now totalTime a st)) =
    console st ++ stable_sort by_time (List.filter is_successful xs).
Proof.
  intros Ha.
  unfold summarize, Array_filter, Array_length, Array_map, Array_sort,
    print_rows, elements_of, new_array, mbind, JS_bind, mret, JS_ret.
  cbn [arrays console fst snd].
  rewrite Ha. cbn [default].
  set (a1 := fresh (dom (arrays st))).
  assert (arrays st !! a1 = None) as Ha1.
  { apply not_elem_of_dom, is_fresh. }
  assert (a <> a1) as Hne1 by congruence.
  rewrite (lookup_insert_ne _ a1 a) by done. rewrite Ha. cbn [default].
  set (m1 := <[a1:=_]> (arrays st)).
  set (a2 := fresh (dom m1)).
  assert (m1 !! a2 = None) as Ha2.
  { apply not_elem_of_dom, is_fresh. }
  assert (a <> a2 /\ a1 <> a2) as [Hne2 Hne12].
  { split; intros <-; subst m1.
    - by rewrite lookup_insert_ne, Ha in Ha2 by done.
    - by rewrite lookup_insert_eq in Ha2. }
  rewrite (lookup_insert_ne _ a2 a) by done.
  assert (m1 !! a = Some xs) as Ham1.
  { subst m1. by rewrite lookup_insert_ne. }
  rewrite Ham1. cbn [default].
  set (m2 := <[a2:=_]> m1).
  set (a3 := fresh (dom m2)).
  assert (m2 !! a3 = None) as Ha3.
  { apply not_elem_of_dom, is_fresh. }
  assert (a <> a3 /\ a1 <> a3 /\ a2 <> a3) as (Hne3 & Hne13 & Hne23).
  { repeat split; intros <-; subst m2 m1.
    - by rewrite !lookup_insert_ne, Ha in Ha3 by done.
    - by rewrite lookup_insert_ne, lookup_insert_eq in Ha3 by done.
    - by rewrite lookup_insert_eq in Ha3. }
  set (m3 := <[a3:=_]> m2).
  assert (m3 !! a = Some xs) as Ham3.
  { subst m3 m2. by rewrite !lookup_insert_ne by done. }
  assert (m3 !! a1 = Some (List.filter is_successful xs)) as Hs1.
  { subst m3 m2 m1. by rewrite !lookup_insert_ne, lookup_insert_eq by done. }
  assert (m3 !! a2 = Some (List.filter is_noData xs)) as Hs2.
  { subst m3 m2. by rewrite lookup_insert_ne, lookup_insert_eq by done. }
  assert (m3 !! a3 = Some (List.filter is_failed xs)) as Hs3.
  { subst m3. by rewrite lookup_insert_eq. }
  rewrite Hs1. cbn [default]. unfold id.
  destruct (0 <? Z.of_nat (length (List.filter is_successful xs))) eqn:Hshown;
    cbn [arrays console fst snd].
  - rewrite (lookup_alter_ne _ _ a1 a), (lookup_alter_ne _ _ a1 a2),
      (lookup_alter_ne _ _ a1 a3) by done.
    rewrite lookup_alter_eq.
    rewrite Ham3, Hs1, Hs2, Hs3. cbn [default fmap option_fmap option_map].
    rewrite stable_sort_length. done.
  - rewrite Ham3, Hs1, Hs2, Hs3. cbn [default].
    apply Z.ltb_ge in Hshown.
    destruct (List.filter is_successful xs); simpl in *; [|lia].
    by rewrite app_nil_r.
Qed.

(** ** The run as a whole *)

Lemma runWithConcurrency_inflight_bound_witness :
  inflight state_two ⊆ executing state_two /\
  Z.of_nat (size (inflight state_two)) <= 2 /\
  Z.of_nat (size (executing state_two)) <= 2.
Proof.
  apply (runWithConcurrency_inflight_bound probe_task registry_demo 2
           (take 6 schedule_two) state_two).
  - lia.
  - vm_compute. reflexivity.
Defined.

(** What the scheduler returns lists, task by task, what that task was
    fulfilled with. *)
Lemma runWithConcurrency_order
    {Task Env A : Type} (perform : Task -> Env -> A) (tasks : list Task)
    (limit : Z) (evs : list Event) (out : list A) :
  runWithConcurrency perform tasks limit evs = Some out ->
  Forall2 (fun t x => exists e, x = perform t e) tasks out.
Proof.
  unfold runWithConcurrency.
  destruct (exec perform tasks limit evs start) as [s|] eqn:Hexec; [|done].
  destruct (phase s) as [| | |out'] eqn:Hph; try done. intros [= ->].
  pose proof (exec_consistent perform tasks limit evs _ _
                (start_consistent perform tasks) Hexec) as Hs.
  pose proof (c_phase _ _ _ Hs) as Hout. by rewrite Hph in Hout.
Qed.

(** Whatever the bound and the order of completions, a call that has not
    returned yet can be brought to return. *)
Lemma runWithConcurrency_returns
    {Task Env A : Type} (perform : Task -> Env -> A) (tasks : list Task)
    (limit : Z) (e0 : Env) (evs : list Event) (s : Sched) :
  exec perform tasks limit evs start = Some s ->
  exists evs' out,
    runWithConcurrency perform tasks limit (evs ++ evs') = Some out.
Proof.
  intros Hexec.
  pose proof (exec_consistent perform tasks limit evs _ _
                (start_consistent perform tasks) Hexec) as Hs.
  destruct (exec_can_return perform tasks limit e0 _ s (le_n _) Hs)
    as (evs' & s' & out & Hexec' & Hph).
  exists evs', out. unfold runWithConcurrency.
  rewrite (exec_app perform tasks limit evs evs' _ _ Hexec), Hexec', Hph.
  done.
Qed.

Lemma probe_task_row (t : string * Site) (w : World) :
  key (probe_task t w) = fst t /\
  name (probe_task t w) = site_name (snd t) /\
  well_shaped (fst t) (site_api (snd t)) (probe_task t w).
Proof.
  unfold probe_task.
  pose proof (testApi_well_shaped (fst t) (site_api (snd t))
                (retryCount CONFIG) w) as Hshape.
  destruct (testApi _ _ _ w) as [r w']. simpl in *.
  split; [apply Hshape | split; [reflexivity | exact Hshape]].
Qed.

(** C5: under every bound and every order of completions, the rows that
    [runWithConcurrency] returns are those of the submitted tasks, in the
    order of submission: the i-th row is the result of probing the i-th
    site and carries its key and name; [results.map] in the report keeps
    that order. *)
Theorem results_in_submission_order
    (apiSites : list (string * Site)) (limit : Z)
    (evs : list (@Event World)) (out : list Row) :
  runWithConcurrency probe_task apiSites limit evs = Some out ->
  Forall2 (fun t r => exists w, r = probe_task t w) apiSites out /\
  List.map (fun r : Row => key r) out = List.map fst apiSites /\
  List.map name out = List.map (fun t => site_name (snd t)) apiSites /\
  forall now totalTime a st,
    arrays st !! a = Some out ->
    report_results (fst (summarize now totalTime a st))
    = List.map report_entry out.
Proof.
  intros Hrun. apply runWithConcurrency_order in Hrun.
  split; [exact Hrun|]. split; [|split].
  - induction Hrun as [|t r ts rs [w ->] _ IH]; simpl; [done|].
    destruct (probe_task_row t w) as (-> & _). by rewrite IH.
  - induction Hrun as [|t r ts rs [w ->] _ IH]; simpl; [done|].
    destruct (probe_task_row t w) as (_ & -> & _). by rewrite IH.
  - intros now totalTime a st Ha.
    destruct (summarize_spec now totalTime a st out Ha) as (-> & _). done.
Qed.

Lemma results_in_submission_order_witness :
  Forall2 (fun t r => exists w, r = probe_task t w) registry_demo rows_two /\
  List.map (fun r : Row => key r) rows_two = List.map fst registry_demo /\
  List.map name rows_two
    = List.map (fun t => site_name (snd t)) registry_demo /\
  forall now totalTime a st,
    arrays st !! a = Some rows_two ->
    report_results (fst (summarize now totalTime a st))
    = List.map report_entry rows_two.
Proof.
  apply (results_in_submission_order registry_demo 2 schedule_two rows_two).
  vm_compute. reflexivity.
Defined.

(** [main] in terms of its two stages. *)
Lemma main_stages apiSites evs now totalTime rep st :
  main apiSites evs now totalTime = Some (rep, st) ->
  exists out a st0,
    runWithConcurrency probe_task apiSites (concurrency CONFIG) evs = Some out /\
    arrays st0 !! a = Some out /\
    (rep, st) = summarize now totalTime a st0.
Proof.
  unfold main.
  destruct (runWithConcurrency _ _ _ _) as [out|]; [|done].
  simpl. unfold mbind, JS_bind, new_array. simpl. intros [= Hrun].
  eexists out, _, _. split; [done|]. split; [|symmetry; exact Hrun].
  simpl. apply lookup_insert_eq.
Qed.

(** C6: in the report of every completed run the three counts are the
    sizes of the three buckets, every row is in exactly one bucket, and
    the counts add up to [totalApis], which is the length of [results] and
    the number of sites. *)
Theorem report_counts_partition
    (apiSites : list (string * Site)) (evs : list (@Event World))
    (now : string) (totalTime : Z) (rep : Report) (st : Store) :
  main apiSites evs now totalTime = Some (rep, st) ->
  (exists out : list Row,
      report_results rep = List.map report_entry out /\
      successCount rep = Z.of_nat (length (List.filter is_successful out)) /\
      noDataCount rep = Z.of_nat (length (List.filter is_noData out)) /\
      failedCount rep = Z.of_nat (length (List.filter is_failed out)) /\
      Forall (fun r => Nat.b2n (is_successful r) + Nat.b2n (is_noData r)
                       + Nat.b2n (is_failed r) = 1)%nat out) /\
  successCount rep + noDataCount rep + failedCount rep = totalApis rep /\
  totalApis rep = Z.of_nat (length (report_results rep)) /\
  length (report_results rep) = length apiSites.
Proof.
  intros (out & a & st0 & Hrun & Ha & Hsum)%main_stages.
  destruct (summarize_spec now totalTime a st0 out Ha) as (Hrep & _).
  rewrite <- Hsum in Hrep. simpl in Hrep. subst rep. simpl.
  apply runWithConcurrency_order, Forall2_length in Hrun.
  pose proof (buckets_count out). rewrite length_map.
  repeat split; try lia.
  exists out. repeat split; try done.
  apply Forall_forall. intros r _.
  destruct (buckets_exclusive r) as [(-> & -> & ->)|[(-> & -> & ->)|(-> & -> & ->)]];
    done.
Qed.

Lemma report_counts_partition_witness :
  (exists out : list Row,
      report_results report_demo = List.map report_entry out /\
      successCount report_demo = Z.of_nat (length (List.filter is_successful out)) /\
      noDataCount report_demo = Z.of_nat (length (List.filter is_noData out)) /\
      failedCount report_demo = Z.of_nat (length (List.filter is_failed out)) /\
      Forall (fun r => Nat.b2n (is_successful r) + Nat.b2n (is_noData r)
                       + Nat.b2n (is_failed r) = 1)%nat out) /\
  successCount report_demo + noDataCount report_demo + failedCount report_demo
    = totalApis report_demo /\
  totalApis report_demo = Z.of_nat (length (report_results report_demo)) /\
  length (report_results report_demo) = length registry_demo.
Proof.
  apply (report_counts_partition registry_demo schedule_demo
           "2025-01-01T00:00:00.000Z" 8123 report_demo store_demo).
  vm_compute. reflexivity.
Defined.

(** C7: [sort] reorders the array made by [filter] and no other: after the
    sorted bucket has been printed, the array of results is what it was
    and the report lists its rows in that order.  What is printed is the
    successful bucket in ascending order of [time], rows with equal times
    in the order of the results. *)
Theorem sort_leaves_results
    (now : string) (totalTime : Z) (a : nat) (st : Store) (xs : list Row) :
  arrays st !! a = Some xs ->
  arrays (snd (summarize now totalTime a st)) !! a = Some xs /\
  report_results (fst (summarize now totalTime a st))
    = List.map report_entry xs /\
  exists shown,
    console (snd (summarize now totalTime a st)) = console st ++ shown /\
    Permutation shown (List.filter is_successful xs) /\
    StronglySorted (fun r1 r2 : Row => time r1 <= time r2) shown /\
    forall t,
      List.filter (fun r : Row => time r =? t) shown
      = List.filter (fun r : Row => time r =? t)
                    (List.filter is_successful xs).
Proof.
  intros Ha.
  destruct (summarize_spec now totalTime a st xs Ha) as (Hrep & Harr & Hcon).
  split; [exact Harr|]. split; [by rewrite Hrep|].
  exists (stable_sort by_time (List.filter is_successful xs)).
  split; [exact Hcon|]. split; [apply stable_sort_perm|].
  split; [apply stable_sort_sorted|]. intros t. apply stable_sort_stable.
Qed.

Lemma sort_leaves_results_witness :
  arrays (snd (summarize "" 0 0%nat store_two)) !! 0%nat = Some rows_two /\
  report_results (fst (summarize "" 0 0%nat store_two))
    = List.map report_entry rows_two /\
  exists shown,
    console (snd (summarize "" 0 0%nat store_two)) = console store_two ++ shown /\
    Permutation shown (List.filter is_successful rows_two) /\
    StronglySorted (fun r1 r2 : Row => time r1 <= time r2) shown /\
    forall t,
      List.filter (fun r : Row => time r =? t) shown
      = List.filter (fun r : Row => time r =? t)
                    (List.filter is_successful rows_two).
Proof.
  apply (sort_leaves_results "" 0 0%nat store_two rows_two).
  vm_compute. reflexivity.
Defined.

(** The sort does reorder the bucket it is applied to: in the sample run
    the fourth site is listed before the first. *)
Example sort_reorders_bucket :
  List.map (fun r : Row => key r)
           (console (snd (summarize "" 0 0%nat store_two)))
  = ["fast"; "ruyi"].
Proof. vm_compute. reflexivity. Qed.

(** The properties of a persisted entry, read off the row. *)
Lemma persisted_entry (r : Row) :
  let o := stringify_props (report_entry r) in
  has_field "key" o = true /\
  has_field "name" o = true /\
  has_field "api" o = true /\
  has_field "status" o = true /\
  has_field "timeMs" o = true /\
  assoc "status" o = VStr (status r) /\
  has_field "dataCount" o = bool_decide (is_Some (dataCount r)) /\
  has_field "hasValidData" o = negb (is_undefined (hasValidData r)).
Proof.
  unfold stringify_props, report_entry.
  destruct (httpCode r), (dataCount r), (hasValidData r), (error r);
    vm_compute; repeat split.
Qed.

(** C9, as stated, fails: in the sample run the site that answered 404 is
    written without [dataCount] and [hasValidData]. *)
Lemma report_lists_all_fields_fails :
  ~ report_lists_all_fields registry_demo schedule_demo
      "2025-01-01T00:00:00.000Z" 8123.
Proof.
  intros Hall.
  specialize (Hall report_demo store_demo ltac:(vm_compute; reflexivity)).
  apply Forall_lookup with (i := 1%nat)
    (x := [("key", VStr "lost"); ("name", VStr "Lost");
           ("api", VStr "http://lost"); ("status", VStr "http_error");
           ("httpCode", VNum 404); ("timeMs", VNum 20);
           ("error", VStr "HTTP 404")]) in Hall.
  - vm_compute in Hall. discriminate Hall.
  - vm_compute. reflexivity.
Qed.

(** C9, amended: every persisted result has [key], [name], [api],
    [status] and [timeMs]; [dataCount] is written for the results with
    status ["success"], and neither [dataCount] nor [hasValidData] is
    written for the others. *)
Theorem persisted_fields_by_status
    (apiSites : list (string * Site)) (evs : list (@Event World))
    (now : string) (totalTime : Z) (rep : Report) (st : Store) :
  main apiSites evs now totalTime = Some (rep, st) ->
  length (persisted_results rep) = length apiSites /\
  Forall (fun o =>
            has_field "key" o = true /\
            has_field "name" o = true /\
            has_field "api" o = true /\
            has_field "status" o = true /\
            has_field "timeMs" o = true /\
            (assoc "status" o = VStr "success" ->
             has_field "dataCount" o = true) /\
            (assoc "status" o <> VStr "success" ->
             has_field "dataCount" o = false /\
             has_field "hasValidData" o = false))
         (persisted_results rep).
Proof.
  intros (out & a & st0 & Hrun & Ha & Hsum)%main_stages.
  destruct (summarize_spec now totalTime a st0 out Ha) as (Hrep & _).
  rewrite <- Hsum in Hrep. simpl in Hrep. subst rep.
  unfold persisted_results. simpl.
  apply runWithConcurrency_order in Hrun.
  split; [rewrite !length_map; symmetry; by eapply Forall2_length|].
  rewrite !Forall_map. apply Forall_forall. intros r Hr.
  apply list_elem_of_lookup in Hr as [i Hi].
  destruct (Forall2_lookup_r _ _ _ _ _ Hrun Hi) as (t & _ & w & ->).
  destruct (persisted_entry (probe_task t w))
    as (Hk & Hn & Ha' & Hs & Ht & Hst & Hdc & Hvd).
  destruct (probe_task_row t w) as (_ & _ & _ & _ & Hshape).
  repeat split; try done.
  - rewrite Hst, Hdc. intros [= Hsuccess].
    destruct Hshape as [(_ & _ & Hcount & _)|[(Hother & _)|(Hother & _)]];
      [by apply bool_decide_eq_true_2 | congruence | congruence].
  - rename select (assoc _ _ <> _) into Hne. rewrite Hst in Hne. rewrite Hdc.
    destruct Hshape as [(Hsuccess & _)|[(_ & _ & -> & _)|(_ & _ & -> & _)]];
      [congruence | |]; apply bool_decide_eq_false_2; by intros [? ?].
  - rename select (assoc _ _ <> _) into Hne. rewrite Hst in Hne. rewrite Hvd.
    destruct Hshape as [(Hsuccess & _)|[(_ & _ & _ & -> & _)|(_ & _ & _ & -> & _)]];
      [congruence | done | done].
Qed.

Lemma persisted_fields_by_status_witness :
  length (persisted_results report_demo) = length registry_demo /\
  Forall (fun o =>
            has_field "key" o = true /\
            has_field "name" o = true /\
            has_field "api" o = true /\
            has_field "status" o = true /\
            has_field "timeMs" o = true /\
            (assoc "status" o = VStr "success" ->
             has_field "dataCount" o = true) /\
            (assoc "status" o <> VStr "success" ->
             has_field "dataCount" o = false /\
             has_field "hasValidData" o = false))
         (persisted_results report_demo).
Proof.
  apply (persisted_fields_by_status registry_demo schedule_demo
           "2025-01-01T00:00:00.000Z" 8123 report_demo store_demo).
  vm_compute. reflexivity.
Defined.

(** * Further properties of the test script *)

(** ** The probe executor *)

(** X1: a 2xx response whose body has an array under [list] gives, after
    one request, a result with status ["success"], the HTTP status, the
    latency of the response as [time], the length of the array as
    [dataCount] and the boolean [dataCount > 0] as [hasValidData]; the row
    is in the successful bucket exactly when the array is not empty, and
    in the no-data bucket otherwise. *)
Theorem testApi_counts_list_items
    (key a : string) (retries : Z) (w : World) (d st rd : Z)
    (data : Value) (items : list Value) :
  exchange a w (requests w) = Answers d st (Parses rd data) ->
  d < timeout CONFIG ->
  is_2xx st = true ->
  get_list data = VArr items ->
  fst (testApi key a retries w) =
    {| key := key; api := a; status := "success"; httpCode := Some st;
       time := d; dataCount := Some (Z.of_nat (length items));
       hasValidData := VBool (0 <? Z.of_nat (length items));
       error := None |} /\
  requests (snd (testApi key a retries w)) = S (requests w) /\
  (forall n, is_successful {| result := fst (testApi key a retries w); name := n |}
             = negb (length items =? 0)%nat) /\
  (forall n, is_noData {| result := fst (testApi key a retries w); name := n |}
             = (length items =? 0)%nat).
Proof.
  intros Hx Hd Hst Hlist.
  assert (truthy data = true) as Hdata.
  { destruct data; try discriminate Hlist. reflexivity. }
  assert (exists w1, attempt key a w =
            (inr {| key := key; api := a; status := "success";
                    httpCode := Some st; time := d;
                    dataCount := Some (Z.of_nat (length items));
                    hasValidData := VBool (0 <? Z.of_nat (length items));
                    error := None |}, w1) /\
            requests w1 = S (requests w)) as (w1 & Hat & Hreq).
  { unfold attempt, fetch, json, ok. unfold exchange in Hx. rewrite Hx.
    apply Z.ltb_lt in Hd. rewrite Hd. simpl. rewrite Hst, Hlist.
    unfold js_and. rewrite Hdata. simpl.
    eexists. split.
    - repeat f_equal. lia.
    - reflexivity. }
  rewrite (testApi_returned key a retries w _ _ Hat).
  unfold is_successful, is_noData. simpl.
  repeat split; auto; intros _; destruct items; reflexivity.
Qed.

Lemma testApi_counts_list_items_witness :
  fst (testApi "ruyi" "http://ruyi" 1 world_fast) =
    {| key := "ruyi"; api := "http://ruyi"; status := "success";
       httpCode := Some 200; time := 10;
       dataCount := Some (Z.of_nat (length [VStr "x"]));
       hasValidData := VBool (0 <? Z.of_nat (length [VStr "x"]));
       error := None |} /\
  requests (snd (testApi "ruyi" "http://ruyi" 1 world_fast)) = 1%nat /\
  (forall n, is_successful {| result := fst (testApi "ruyi" "http://ruyi" 1 world_fast); name := n |}
             = negb (length [VStr "x"] =? 0)%nat) /\
  (forall n, is_noData {| result := fst (testApi "ruyi" "http://ruyi" 1 world_fast); name := n |}
             = (length [VStr "x"] =? 0)%nat).
Proof.
  apply (testApi_counts_list_items "ruyi" "http://ruyi" 1 world_fast 10 200 1
           (VObj [("list", VArr [VStr "x"])]) [VStr "x"]).
  - reflexivity.
  - reflexivity.
  - reflexivity.
  - reflexivity.
Defined.

(** X2: retried failures leave no trace in the result: when the first [k]
    attempts fail before the timer fires, [k] being within the budget, and
    the next request is answered in time (with a body that parses if the
    status is 2xx), the result is the one of that answer: status
    ["success"] or ["http_error"] by its HTTP status, that status as
    [httpCode], its latency as [time]; [k + 1] requests have been made. *)
Theorem testApi_recovers_after_failures
    (key a : string) (retries : Z) (w : World) (k : nat) (d st : Z) (b : Body) :
  Z.of_nat k <= retries ->
  (forall i, (i < k)%nat -> exists e,
      failure (exchange a w (requests w + i)) = Some e /\
      err_name e <> "AbortError") ->
  exchange a w (requests w + k) = Answers d st b ->
  d < timeout CONFIG ->
  (is_2xx st = true -> exists rd v, b = Parses rd v) ->
  status (fst (testApi key a retries w))
    = (if is_2xx st then "success" else "http_error") /\
  httpCode (fst (testApi key a retries w)) = Some st /\
  time (fst (testApi key a retries w)) = d /\
  requests (snd (testApi key a retries w)) = S (requests w + k).
Proof.
  intros Hk Hfail Hx Hd Hbody.
  destruct (testApi_skip_failures key a k retries w Hk Hfail)
    as (w' & -> & Hreq & Hnet).
  assert (exists r w1, attempt key a w' = (inr r, w1) /\
            status r = (if is_2xx st then "success" else "http_error") /\
            httpCode r = Some st /\ time r = d /\
            requests w1 = S (requests w')) as (r & w1 & Hat & Hs & Hc & Ht & Hr).
  { unfold attempt, fetch, json, ok. unfold exchange in Hx.
    rewrite Hnet, Hreq, Hx. apply Z.ltb_lt in Hd. rewrite Hd. simpl.
    destruct (is_2xx st).
    - destruct Hbody as (rd & v & ->); [reflexivity|]. simpl.
      eexists _, _. split; [reflexivity|]. simpl. repeat split; lia.
    - eexists _, _. split; [reflexivity|]. simpl. repeat split; lia. }
  rewrite (testApi_returned key a _ w' r w1 Hat). simpl.
  repeat split; auto. lia.
Qed.

Lemma testApi_recovers_after_failures_witness :
  status (fst (testApi "ruyi" "http://ruyi" 1 world_reset_then_ok))
    = (if is_2xx 200 then "success" else "http_error") /\
  httpCode (fst (testApi "ruyi" "http://ruyi" 1 world_reset_then_ok)) = Some 200 /\
  time (fst (testApi "ruyi" "http://ruyi" 1 world_reset_then_ok)) = 50 /\
  requests (snd (testApi "ruyi" "http://ruyi" 1 world_reset_then_ok)) = 2%nat.
Proof.
  apply (testApi_recovers_after_failures "ruyi" "http://ruyi" 1
           world_reset_then_ok 1 50 200
           (Parses 0 (VObj [("list", VArr [VNum 1; VNum 2])]))).
  - lia.
  - intros i Hi. exists (TypeError "fetch failed").
    destruct i as [|i]; [split; [reflexivity | discriminate] | lia].
  - reflexivity.
  - reflexivity.
  - intros _. eexists _, _. reflexivity.
Defined.

(** X3: whatever the network does, the result of a probe carries the key
    and the URL it was called with, has one of the three statuses, and has
    its optional properties by status: [httpCode] unless the status is
    ["error"], [dataCount] only under ["success"], [error] unless the
    status is ["success"], and no [hasValidData] outside ["success"]. *)
Theorem testApi_result_shape (key_ a : string) (retries : Z) (w : World) :
  key (fst (testApi key_ a retries w)) = key_ /\
  api (fst (testApi key_ a retries w)) = a /\
  (status (fst (testApi key_ a retries w)) = "success" \/
   status (fst (testApi key_ a retries w)) = "http_error" \/
   status (fst (testApi key_ a retries w)) = "error") /\
  (is_Some (httpCode (fst (testApi key_ a retries w))) <->
   status (fst (testApi key_ a retries w)) <> "error") /\
  (is_Some (dataCount (fst (testApi key_ a retries w))) <->
   status (fst (testApi key_ a retries w)) = "success") /\
  (is_Some (error (fst (testApi key_ a retries w))) <->
   status (fst (testApi key_ a retries w)) <> "success") /\
  (status (fst (testApi key_ a retries w)) <> "success" ->
   hasValidData (fst (testApi key_ a retries w)) = VUndefined).
Proof.
  destruct (testApi_well_shaped key_ a retries w) as (Hkey & Hapi & Hshape).
  split; [exact Hkey|]. split; [exact Hapi|].
  destruct Hshape as [(Hs & Hc & Hd & He)|[(Hs & Hc & Hd & Hv & He)
                                          |(Hs & Hc & Hd & Hv & He)]];
    rewrite Hs, ?Hc, ?Hd, ?He, ?Hv;
    repeat split; auto; try discriminate; try (intros [? ?]; discriminate);
    try (intros ?; exfalso; congruence); try (intros _; assumption).
Qed.

Lemma attempt_clock (key a : string) (w : World) :
  punctual (exchange a w (requests w)) ->
  clock w <= clock (snd (attempt key a w)) /\
  match fst (attempt key a w) with
  | inl (_, elapsed) =>
      0 <= elapsed <= clock (snd (attempt key a w)) - clock w
  | inr r => 0 <= time r <= clock (snd (attempt key a w)) - clock w
  end.
Proof.
  unfold attempt, fetch, json, ok, punctual, exchange.
  destruct (network w _ _) as [d st [rd v|rd e]|d e|]; simpl;
    split_ifs; lia.
Qed.

(** X4: when no latency and no body-read time is negative, the [time] of
    a result is not negative and not more than the clock has advanced by
    between the call of [testApi] and its return. *)
Theorem testApi_time_within_wall_time
    (key a : string) (retries : Z) (w : World) :
  (forall i, punctual (exchange a w i)) ->
  0 <= time (fst (testApi key a retries w))
    <= clock (snd (testApi key a retries w)) - clock w.
Proof.
  apply (testApi_cases key a
           (fun _ w0 res => (forall i, punctual (exchange a w0 i)) ->
                            0 <= time (fst res) <= clock (snd res) - clock w0)).
  - intros _ w0 r w' Hat Hp.
    pose proof (attempt_clock key a w0 (Hp _)) as [_ Hr].
    rewrite Hat in Hr. exact Hr.
  - intros _ w0 e el w' Hat _ Hp.
    pose proof (attempt_clock key a w0 (Hp _)) as [_ Hr].
    rewrite Hat in Hr. exact Hr.
  - intros r0 w0 e el w' Hat _ _ IH Hp.
    pose proof (attempt_clock key a w0 (Hp _)) as [Hle _].
    destruct (attempt_sent key a w0) as [_ Hnet].
    rewrite Hat in Hle, Hnet. simpl in Hle, Hnet.
    assert (forall i, punctual (exchange a w' i)) as Hp'.
    { intros i. unfold exchange in *. rewrite Hnet. apply Hp. }
    specialize (IH Hp'). lia.
Qed.

Lemma testApi_time_within_wall_time_witness :
  0 <= time (fst (testApi "ruyi" "http://ruyi" 1 world_reset_then_ok))
    <= clock (snd (testApi "ruyi" "http://ruyi" 1 world_reset_then_ok))
       - clock world_reset_then_ok.
Proof.
  apply (testApi_time_within_wall_time "ruyi" "http://ruyi" 1 world_reset_then_ok).
  intros [|i]; simpl; lia.
Defined.

(** The two ways in which the [try] block returns. *)
Lemma attempt_returned (key a : string) (w : World) (r : Outcome) (w' : World) :
  attempt key a w = (inr r, w') ->
  (exists d st rd v,
      exchange a w (requests w) = Answers d st (Parses rd v) /\
      d < timeout CONFIG /\ is_2xx st = true /\
      status r = "success" /\
      dataCount r =
        Some (if truthy (js_and (js_and v (get_list v))
                                (VBool (isArray (get_list v))))
              then array_length (get_list v) else 0) /\
      hasValidData r =
        js_and (js_and (js_and v (get_list v))
                       (VBool (isArray (get_list v))))
               (VBool (0 <? (if truthy (js_and (js_and v (get_list v))
                                               (VBool (isArray (get_list v))))
                             then array_length (get_list v) else 0)))) \/
  (exists d st b,
      exchange a w (requests w) = Answers d st b /\
      d < timeout CONFIG /\ is_2xx st = false /\
      status r = "http_error" /\ dataCount r = None /\
      hasValidData r = VUndefined).
Proof.
  unfold attempt, fetch, json, ok, exchange.
  destruct (network w _ _) as [d st b|d e|]; [| |discriminate].
  - destruct (d <? timeout CONFIG) eqn:Hd; [|discriminate].
    apply Z.ltb_lt in Hd. cbn [resp_status resp_body].
    destruct (is_2xx st) eqn:Hst.
    + destruct b as [rd v|rd e]; [|discriminate].
      intros [= <- <-]. left. exists d, st, rd, v. auto 10.
    + intros [= <- <-]. right. exists d, st, b. auto 10.
  - destruct (d <? timeout CONFIG); discriminate.
Qed.

(** X5: a probe result counts as available exactly when it counted at
    least one item: [hasValidData] is truthy if and only if [dataCount] is
    a positive number, and the status is then ["success"]. *)
Theorem testApi_available_iff_items
    (key a : string) (retries : Z) (w : World) :
  (truthy (hasValidData (fst (testApi key a retries w))) = true <->
   exists n, dataCount (fst (testApi key a retries w)) = Some n /\ 0 < n) /\
  (truthy (hasValidData (fst (testApi key a retries w))) = true ->
   status (fst (testApi key a retries w)) = "success").
Proof.
  apply (testApi_cases key a
           (fun _ _ res =>
              (truthy (hasValidData (fst res)) = true <->
               exists n, dataCount (fst res) = Some n /\ 0 < n) /\
              (truthy (hasValidData (fst res)) = true ->
               status (fst res) = "success"))).
  - intros _ w0 r w' Hat. simpl.
    destruct (attempt_returned key a w0 r w' Hat)
      as [(d & st & rd & v & _ & _ & _ & -> & -> & ->)
         |(d & st & b & _ & _ & _ & -> & -> & ->)].
    + unfold js_and at 1.
      destruct (truthy (js_and (js_and v (get_list v))
                               (VBool (isArray (get_list v))))) eqn:Hdata;
        simpl.
      * split; [|reflexivity]. split.
        -- intros Hpos. apply Z.ltb_lt in Hpos. eauto.
        -- intros (n & [= <-] & Hpos). by apply Z.ltb_lt.
      * rewrite Hdata. split; [|done]. split; [done|].
        intros (n & [= <-] & Hpos). lia.
    + simpl. split; [|done]. split; [done|].
      intros (n & [=] & _).
  - intros. simpl. split; [|done]. split; [done|].
    intros (n & [=] & _).
  - auto.
Qed.

(** ** The bounded scheduler *)

Section SchedulerRuns.
Context {Task Env A : Type}.
Variable perform : Task -> Env -> A.
Variable tasks : list Task.
Variable limit : Z.

Local Abbreviation step := (step perform tasks limit).
Local Abbreviation exec := (exec perform tasks limit).
Local Abbreviation consistent := (consistent perform tasks).

(** A property that holds at the start and is kept by every step holds in
    every state a call can reach. *)
Lemma exec_invariant (I : @Sched A -> Prop) :
  I start ->
  (forall ev s s', consistent s -> I s -> step ev s = Some s' -> I s') ->
  forall evs s, exec evs start = Some s -> I s.
Proof.
  intros Hstart Hstep.
  assert (forall evs s0 s, consistent s0 -> I s0 ->
                           exec evs s0 = Some s -> I s) as Hall.
  { induction evs as [|ev evs IH]; intros s0 s Hc HI; simpl.
    - by intros [= <-].
    - destruct (step ev s0) as [s1|] eqn:Hs1; [|done]. simpl.
      apply IH; [by eapply step_consistent | by eapply Hstep]. }
  intros evs s. apply Hall; [apply start_consistent | exact Hstart].
Qed.

(** Every event uses up some of what remains to be done. *)
Lemma step_decreases ev s s' :
  consistent s -> step ev s = Some s' ->
  (remaining tasks s' < remaining tasks s)%nat.
Proof.
  intros Hs. destruct ev as [|i e|i| | |]; simpl.
  - unfold dispatch. destruct (phase s) eqn:Hph; try done.
    destruct (tasks !! next s) as [t|] eqn:Ht; [|done]. intros [= <-].
    apply lookup_lt_Some in Ht. unfold remaining. simpl. rewrite Hph.
    pose proof (size_add_one (next s) (inflight s)).
    destruct (limit <=? _); lia.
  - unfold settle. destruct (tasks !! i) as [t|]; [|done].
    destruct (suspended (phase s)); [|done].
    case_bool_decide as Hi; [|done]. simpl. intros [= <-].
    unfold remaining. simpl.
    rewrite map_size_insert_None by (by apply (c_apart _ _ _ Hs)).
    pose proof (size_remove_one i (inflight s) Hi). lia.
  - unfold callback. destruct (ready s !! i) as [x|] eqn:Hx; [|done].
    destruct (suspended (phase s)) eqn:Hsus; [|done]. intros [= <-].
    unfold remaining. simpl.
    rewrite map_size_delete_Some by eauto.
    assert (size (ready s) ≠ 0%nat).
    { apply map_size_non_empty_iff. intros Hem. rewrite Hem in Hx. done. }
    destruct (phase s) as [|[]| |]; simpl in *; try done; lia.
  - destruct (phase s) as [|[]| |] eqn:Hph; try done. intros [= <-].
    unfold remaining. simpl. rewrite Hph. lia.
  - destruct (phase s) eqn:Hph; try done.
    destruct (tasks !! next s); [done|]. intros [= <-].
    unfold remaining. simpl. rewrite Hph. lia.
  - destruct (phase s) eqn:Hph; try done.
    destruct (mapM _ _); [|done]. simpl. intros [= <-].
    unfold remaining. simpl. rewrite Hph. lia.
Qed.

Lemma exec_decreases evs : forall s s',
  consistent s -> exec evs s = Some s' ->
  (length evs + remaining tasks s' <= remaining tasks s)%nat.
Proof.
  induction evs as [|ev evs IH]; intros s s' Hs; simpl.
  - intros [= <-]. lia.
  - destruct (step ev s) as [s1|] eqn:Hs1; [|done]. simpl. intros Hexec.
    pose proof (step_decreases ev s s1 Hs Hs1).
    pose proof (IH s1 s' (step_consistent _ _ _ _ _ _ Hs Hs1) Hexec). lia.
Qed.

(** X6: a call of [runWithConcurrency] ends under every order of
    completions and is never stuck: a schedule has at most
    [8 * tasks.length + 2] events, and from every state it reaches some
    further events make the call return, with one value per task. *)
Theorem runWithConcurrency_always_ends (e0 : Env) evs s :
  exec evs start = Some s ->
  (length evs <= 8 * length tasks + 2)%nat /\
  exists evs' out,
    runWithConcurrency perform tasks limit (evs ++ evs') = Some out /\
    length out = length tasks.
Proof.
  intros Hexec. split.
  - pose proof (exec_decreases evs start s (start_consistent _ _) Hexec) as Hle.
    assert (remaining tasks (@start A) = 8 * length tasks + 2)%nat as Hstart.
    { unfold remaining, start. cbn [next inflight ready phase].
      rewrite size_empty, map_size_empty. lia. }
    lia.
  - destruct (runWithConcurrency_returns perform tasks limit e0 evs s Hexec)
      as (evs' & out & Hrun).
    exists evs', out. split; [exact Hrun|].
    apply runWithConcurrency_order, Forall2_length in Hrun. done.
Qed.
End SchedulerRuns.

Lemma runWithConcurrency_always_ends_witness :
  (length (take 6 schedule_two) <= 8 * length registry_demo + 2)%nat /\
  exists evs' out,
    runWithConcurrency probe_task registry_demo 2
      (take 6 schedule_two ++ evs') = Some out /\
    length out = length registry_demo.
Proof.
  apply (runWithConcurrency_always_ends probe_task registry_demo 2 world_404
           (take 6 schedule_two) state_two).
  vm_compute. reflexivity.
Defined.

Section SchedulerEdges.
Context {Task Env A : Type}.
Variable perform : Task -> Env -> A.
Variable tasks : list Task.
Variable limit : Z.

Local Abbreviation step := (step perform tasks limit).
Local Abbreviation exec := (exec perform tasks limit).
Local Abbreviation consistent := (consistent perform tasks).

Lemma size_below (X : gset nat) (n : nat) :
  (forall i, i ∈ X -> (i < n)%nat) -> (size X <= n)%nat.
Proof.
  intros HX. rewrite <- (size_set_seq (C := gset nat) 0 n).
  apply subseteq_size. intros i Hi. apply elem_of_set_seq.
  specialize (HX i Hi). lia.
Qed.

(** X7: with a bound of at least the number of tasks the loop starts every
    task before it waits for anything: as long as a task is left to start
    the call is in its loop, and every task started so far is still in
    flight. *)
Theorem runWithConcurrency_fans_out evs s :
  Z.of_nat (length tasks) <= limit ->
  exec evs start = Some s ->
  (next s < length tasks)%nat ->
  phase s = InLoop /\
  forall i, (i < next s)%nat -> i ∈ inflight s.
Proof.
  intros Hwide Hexec Hleft.
  pose proof (exec_consistent perform tasks limit evs _ _
                (start_consistent perform tasks) Hexec) as Hs.
  assert (phase s = InLoop /\ ready s = ∅ /\ fulfilled s = ∅)
    as (Hph & Hready & Hful).
  { revert Hleft. revert evs s Hexec Hs.
    apply (exec_invariant perform tasks limit
             (fun s => consistent s -> (next s < length tasks)%nat ->
                       phase s = InLoop /\ ready s = ∅ /\ fulfilled s = ∅)).
    { done. }
    intros ev s0 s1 Hs0 IH Hstep _ Hnext.
    destruct ev as [|i e|i| | |]; simpl in Hstep.
    - unfold dispatch in Hstep.
      destruct (phase s0) eqn:Hph; try done.
      destruct (tasks !! next s0) as [t|] eqn:Ht; [|done].
      injection Hstep as <-. simpl in *.
      destruct (IH Hs0 ltac:(lia)) as (_ & Hready & Hful).
      split; [|done].
      pose proof (size_add_one (next s0) (executing s0)) as Hadd.
      assert (size (executing s0) <= next s0)%nat as Hsize.
      { apply size_below. intros i.
        rewrite (c_executing _ _ _ Hs0), Hready. intros Hi.
        apply (c_inflight _ _ _ Hs0). set_solver. }
      destruct (limit <=? _) eqn:Hfull; [|done].
      apply Z.leb_le in Hfull. lia.
    - unfold settle in Hstep. destruct (tasks !! i); [|done].
      destruct (suspended (phase s0)) eqn:Hsus; [|done].
      case_bool_decide; [|done]. injection Hstep as <-. simpl in *.
      destruct (IH Hs0 Hnext) as (Hph & _). by rewrite Hph in Hsus.
    - unfold callback in Hstep. destruct (ready s0 !! i); [|done].
      destruct (suspended (phase s0)) eqn:Hsus; [|done].
      injection Hstep as <-. simpl in *.
      destruct (IH Hs0 Hnext) as (Hph & _). by rewrite Hph in Hsus.
    - destruct (phase s0) as [|[]| |] eqn:Hph; try done.
      injection Hstep as <-. simpl in *.
      destruct (IH Hs0 Hnext) as (Hph' & _). congruence.
    - destruct (phase s0) eqn:Hph; try done.
      destruct (tasks !! next s0) eqn:Ht; [done|].
      injection Hstep as <-. simpl in *.
      apply lookup_ge_None in Ht. lia.
    - destruct (phase s0) eqn:Hph; try done.
      destruct (mapM _ _); [|done]. injection Hstep as <-. simpl in *.
      destruct (IH Hs0 Hnext) as (Hph' & _). congruence. }
  split; [exact Hph|]. intros i Hi.
  destruct (c_covered _ _ _ Hs i Hi) as [Hin|[[x Hx]|[x Hx]]]; [done| |].
  - by rewrite Hready in Hx.
  - by rewrite Hful in Hx.
Qed.

(** X8: with a bound of one or less (zero and negative bounds included)
    the tasks run one at a time: at most one promise is in [executing],
    and whenever the loop is about to start a task every task before it
    has been fulfilled. *)
Theorem runWithConcurrency_sequential evs s :
  limit <= 1 ->
  exec evs start = Some s ->
  (size (executing s) <= 1)%nat /\
  (size (inflight s) <= 1)%nat /\
  (phase s = InLoop ->
   forall i, (i < next s)%nat -> is_Some (fulfilled s !! i)).
Proof.
  intros Hone Hexec.
  pose proof (exec_consistent perform tasks limit evs _ _
                (start_consistent perform tasks) Hexec) as Hs.
  assert ((size (executing s) <= 1)%nat /\
          match phase s with
          | InLoop | AwaitRace true => executing s = ∅
          | _ => True
          end) as [Hsize Hidle].
  { revert evs s Hexec Hs.
    apply (exec_invariant perform tasks limit
             (fun s => consistent s ->
                       (size (executing s) <= 1)%nat /\
                       match phase s with
                       | InLoop | AwaitRace true => executing s = ∅
                       | _ => True
                       end)).
    { intros _. unfold start. cbn [executing phase]. rewrite size_empty. auto. }
    intros ev s0 s1 Hs0 IH Hstep _. specialize (IH Hs0).
    destruct IH as [Hsize Hidle].
    destruct ev as [|i e|i| | |]; simpl in Hstep.
    - unfold dispatch in Hstep.
      destruct (phase s0) eqn:Hph; try done.
      destruct (tasks !! next s0) as [t|] eqn:Ht; [|done].
      injection Hstep as <-. simpl.
      rewrite Hidle, union_empty_r_L, size_singleton.
      split; [lia|]. destruct (limit <=? _) eqn:Hfull; [done|].
      apply Z.leb_gt in Hfull. lia.
    - unfold settle in Hstep. destruct (tasks !! i); [|done].
      destruct (suspended (phase s0)) eqn:Hsus; [|done].
      case_bool_decide; [|done]. injection Hstep as <-. simpl. auto.
    - unfold callback in Hstep. destruct (ready s0 !! i) as [x|] eqn:Hx; [|done].
      destruct (suspended (phase s0)) eqn:Hsus; [|done].
      injection Hstep as <-. simpl.
      assert (i ∈ executing s0) as Hi.
      { rewrite (c_executing _ _ _ Hs0). apply elem_of_union_r, elem_of_dom.
        by eexists. }
      apply size_remove_one in Hi.
      assert (size (executing s0 ∖ {[i]}) = 0)%nat as Hzero by lia.
      split; [lia|].
      apply size_empty_inv, leibniz_equiv in Hzero.
      destruct (phase s0) as [|[]| |]; done.
    - destruct (phase s0) as [|[]| |] eqn:Hph; try done.
      injection Hstep as <-. simpl. auto.
    - destruct (phase s0) eqn:Hph; try done.
      destruct (tasks !! next s0); [done|].
      injection Hstep as <-. simpl. auto.
    - destruct (phase s0) eqn:Hph; try done.
      destruct (mapM _ _); [|done]. injection Hstep as <-. simpl. auto. }
  split; [exact Hsize|]. split.
  - assert (inflight s ⊆ executing s) as Hsub.
    { rewrite (c_executing _ _ _ Hs). set_solver. }
    apply subseteq_size in Hsub. lia.
  - intros Hph i Hi. rewrite Hph in Hidle.
    rewrite (c_executing _ _ _ Hs) in Hidle.
    destruct (c_covered _ _ _ Hs i Hi) as [Hin|[[x Hx]|Hdone]]; [| |done].
    + set_solver.
    + assert (i ∈ dom (ready s)) by (apply elem_of_dom; eauto). set_solver.
Qed.
End SchedulerEdges.

Lemma runWithConcurrency_fans_out_witness :
  phase state_wide = InLoop /\
  forall i, (i < next state_wide)%nat -> i ∈ inflight state_wide.
Proof.
  apply (runWithConcurrency_fans_out probe_task registry_demo
           (concurrency CONFIG) (take 2 schedule_demo) state_wide).
  - vm_compute. discriminate.
  - vm_compute. reflexivity.
  - vm_compute. lia.
Defined.

Lemma runWithConcurrency_sequential_witness :
  (size (executing state_zero) <= 1)%nat /\
  (size (inflight state_zero) <= 1)%nat /\
  (phase state_zero = InLoop ->
   forall i, (i < next state_zero)%nat -> is_Some (fulfilled state_zero !! i)).
Proof.
  apply (runWithConcurrency_sequential probe_task registry_demo 0
           schedule_zero state_zero).
  - lia.
  - vm_compute. reflexivity.
Defined.

(** ** The report stage *)

(** X9: building the report again from the same results gives the same
    report: the first pass leaves the array of results as it found it, so
    a second pass over the store it left returns an equal report and
    prints the same listing once more. *)
Theorem summarize_twice
    (now : string) (totalTime : Z) (a : nat) (st : Store) (xs : list Row) :
  arrays st !! a = Some xs ->
  fst (summarize now totalTime a (snd (summarize now totalTime a st)))
    = fst (summarize now totalTime a st) /\
  console (snd (summarize now totalTime a (snd (summarize now totalTime a st))))
    = console st ++ stable_sort by_time (List.filter is_successful xs)
                 ++ stable_sort by_time (List.filter is_successful xs).
Proof.
  intros Ha.
  destruct (summarize_spec now totalTime a st xs Ha) as (Hrep & Harr & Hcon).
  destruct (summarize_spec now totalTime a _ xs Harr) as (Hrep' & _ & Hcon').
  split; [by rewrite Hrep, Hrep'|].
  by rewrite Hcon', Hcon, <- app_assoc.
Qed.

Lemma summarize_twice_witness :
  fst (summarize "" 0 0%nat (snd (summarize "" 0 0%nat store_two)))
    = fst (summarize "" 0 0%nat store_two) /\
  console (snd (summarize "" 0 0%nat (snd (summarize "" 0 0%nat store_two))))
    = console store_two
      ++ stable_sort by_time (List.filter is_successful rows_two)
      ++ stable_sort by_time (List.filter is_successful rows_two).
Proof.
  apply (summarize_twice "" 0 0%nat store_two rows_two).
  vm_compute. reflexivity.
Defined.

Lemma persisted_entry_optional (r : Row) :
  let o := stringify_props (report_entry r) in
  assoc "status" o = VStr (status r) /\
  has_field "httpCode" o = bool_decide (is_Some (httpCode r)) /\
  has_field "error" o = bool_decide (is_Some (error r)).
Proof.
  unfold stringify_props, report_entry.
  destruct (httpCode r), (dataCount r), (hasValidData r), (error r);
    vm_compute; repeat split.
Qed.

(** X10: in the persisted report of every completed run each result has
    one of the three statuses, and [httpCode] and [error] are written by
    status: a ["success"] result has [httpCode] and no [error], an
    ["http_error"] result has both, an ["error"] result has [error] and
    no [httpCode]. *)
Theorem persisted_optional_fields
    (apiSites : list (string * Site)) (evs : list (@Event World))
    (now : string) (totalTime : Z) (rep : Report) (st : Store) :
  main apiSites evs now totalTime = Some (rep, st) ->
  Forall (fun o =>
            (assoc "status" o = VStr "success" /\
             has_field "httpCode" o = true /\ has_field "error" o = false) \/
            (assoc "status" o = VStr "http_error" /\
             has_field "httpCode" o = true /\ has_field "error" o = true) \/
            (assoc "status" o = VStr "error" /\
             has_field "httpCode" o = false /\ has_field "error" o = true))
         (persisted_results rep).
Proof.
  intros (out & a & st0 & Hrun & Ha & Hsum)%main_stages.
  destruct (summarize_spec now totalTime a st0 out Ha) as (Hrep & _).
  rewrite <- Hsum in Hrep. simpl in Hrep. subst rep.
  unfold persisted_results. simpl.
  apply runWithConcurrency_order in Hrun.
  rewrite !Forall_map. apply Forall_forall. intros r Hr.
  apply list_elem_of_lookup in Hr as [i Hi].
  destruct (Forall2_lookup_r _ _ _ _ _ Hrun Hi) as (t & _ & w & ->).
  destruct (persisted_entry_optional (probe_task t w)) as (-> & -> & ->).
  destruct (probe_task_row t w) as (_ & _ & _ & _ & Hshape).
  destruct Hshape as [(-> & Hc & _ & ->)|[(-> & Hc & _ & _ & He)
                                         |(-> & -> & _ & _ & He)]].
  - left. split; [done|]. split; [by apply bool_decide_eq_true_2|].
    apply bool_decide_eq_false_2. by intros [? ?].
  - right. left. split; [done|]. split; by apply bool_decide_eq_true_2.
  - right. right. split; [done|]. split; [|by apply bool_decide_eq_true_2].
    apply bool_decide_eq_false_2. by intros [? ?].
Qed.

Lemma persisted_optional_fields_witness :
  Forall (fun o =>
            (assoc "status" o = VStr "success" /\
             has_field "httpCode" o = true /\ has_field "error" o = false) \/
            (assoc "status" o = VStr "http_error" /\
             has_field "httpCode" o = true /\ has_field "error" o = true) \/
            (assoc "status" o = VStr "error" /\
             has_field "httpCode" o = false /\ has_field "error" o = true))
         (persisted_results report_demo).
Proof.
  apply (persisted_optional_fields registry_demo schedule_demo
           "2025-01-01T00:00:00.000Z" 8123 report_demo store_demo).
  vm_compute. reflexivity.
Defined.

(** The store that [summarize] starts from in [main] holds the results and
    an empty console. *)
Lemma main_console apiSites evs now totalTime rep st :
  main apiSites evs now totalTime = Some (rep, st) ->
  exists out a st0,
    runWithConcurrency probe_task apiSites (concurrency CONFIG) evs = Some out /\
    arrays st0 !! a = Some out /\ console st0 = [] /\
    (rep, st) = summarize now totalTime a st0.
Proof.
  unfold main.
  destruct (runWithConcurrency _ _ _ _) as [out|]; [|done].
  simpl. unfold mbind, JS_bind, new_array. simpl. intros [= Hrun].
  eexists out, _, _. split; [done|].
  split; [|split; [|symmetry; exact Hrun]].
  - simpl. apply lookup_insert_eq.
  - reflexivity.
Qed.

(** X11: over an empty registry a completed run reports zero for every
    count, an empty [results] and prints no listing. *)
Theorem main_empty_registry
    (evs : list (@Event World)) (now : string) (totalTime : Z)
    (rep : Report) (st : Store) :
  main [] evs now totalTime = Some (rep, st) ->
  rep = {| testTime := now; totalApis := 0; successCount := 0;
           noDataCount := 0; failedCount := 0; totalTimeMs := totalTime;
           report_results := [] |} /\
  console st = [].
Proof.
  intros (out & a & st0 & Hrun & Ha & Hcon0 & Hsum)%main_console.
  apply runWithConcurrency_order, Forall2_nil_inv_l in Hrun. subst out.
  destruct (summarize_spec now totalTime a st0 [] Ha) as (Hrep & _ & Hcon).
  rewrite <- Hsum in Hrep, Hcon. simpl in Hrep, Hcon.
  split; [exact Hrep|]. by rewrite Hcon, Hcon0.
Qed.

Lemma main_empty_registry_witness :
  report_empty =
    {| testTime := "2025-01-01T00:00:00.000Z"; totalApis := 0;
       successCount := 0; noDataCount := 0; failedCount := 0;
       totalTimeMs := 3; report_results := [] |} /\
  console store_empty = [].
Proof.
  apply (main_empty_registry [LoopEnd; Return] "2025-01-01T00:00:00.000Z" 3
           report_empty store_empty).
  vm_compute. reflexivity.
Defined.

(** X12: the label a task prints for its result names the bucket in which
    the row ends up: the green label goes with the successful bucket, the
    yellow one with the no-data bucket and the red one with the failed
    bucket. *)
Theorem progress_label_names_bucket (r : Row) :
  (progress_label r = green "✓ 可用" <-> is_successful r = true) /\
  (progress_label r = yellow "⚠ 无数据" <-> is_noData r = true) /\
  (progress_label r = red "✗ 失败" <-> is_failed r = true).
Proof.
  unfold progress_label, is_successful, is_noData, is_failed.
  destruct (String.eqb (status r) "success"), (truthy (hasValidData r));
    simpl; repeat split; intros H; try reflexivity; try discriminate H;
    vm_compute in H; discriminate H.
Qed.

(** ** The device discovery route *)

Lemma or_else_filled (o : option string) (d : string) :
  d <> "" -> or_else o d <> "".
Proof.
  intros Hd. destruct o as [s|]; simpl; [|exact Hd].
  destruct (String.eqb s "") eqn:Hs; [exact Hd|].
  by apply String.eqb_neq in Hs.
Qed.

Lemma find_host_none (a : string) (ds : list DLNADevice) :
  List.find (λ d, String.eqb (dev_host d) a) ds = None <->
  a ∉ List.map dev_host ds.
Proof.
  induction ds as [|d ds IH]; simpl.
  - split; [intros _; apply not_elem_of_nil | done].
  - rewrite not_elem_of_cons.
    destruct (String.eqb (dev_host d) a) eqn:Hd.
    + apply String.eqb_eq in Hd. split; [done|]. intros [Hne _]. congruence.
    + apply String.eqb_neq in Hd. rewrite IH. split; [|tauto].
      intros Hnot. split; [congruence | exact Hnot].
Qed.

(** What one reply does to the array. *)
Lemma on_response_cases (ds : list DLNADevice) (r : Reply) :
  on_response ds r = ds \/
  exists d, on_response ds r = ds ++ [d] /\
            dev_host d = address r /\
            (address r ∉ List.map dev_host ds) /\
            dev_name d <> "" /\ dev_location d <> "" /\
            statusCode r = 200 /\
            headers r !! "LOCATION" = Some (dev_location d).
Proof.
  unfold on_response.
  destruct (statusCode r =? 200) eqn:Hcode; simpl; [|by left].
  destruct (headers r !! "LOCATION") as [loc|] eqn:Hloc; simpl; [|by left].
  destruct (String.eqb loc "") eqn:Hempty; simpl; [by left|].
  destruct (_ || _); [|by left].
  destruct (List.find _ ds) as [d|] eqn:Hfind; [by left|].
  right. eexists. split; [reflexivity|]. simpl.
  apply find_host_none in Hfind. apply Z.eqb_eq in Hcode.
  apply String.eqb_neq in Hempty.
  repeat split; auto.
  apply or_else_filled, or_else_filled. discriminate.
Qed.

Lemma on_response_tidy (ds : list DLNADevice) (r : Reply) :
  tidy ds -> tidy (on_response ds r).
Proof.
  intros [Hdup Hall].
  destruct (on_response_cases ds r)
    as [->|(d & -> & Hhost & Hnew & Hname & Hloc & _)]; [done|].
  split.
  - rewrite map_app. simpl. apply NoDup_app. split; [exact Hdup|].
    split; [|apply NoDup_singleton].
    intros h Hh ->%list_elem_of_singleton. congruence.
  - apply Forall_app. split; [exact Hall|]. by constructor.
Qed.

(** X13: a reply adds at most one device, at the end of the list, and only
    for a host that is not listed yet; it then came with status 200 and
    the device has that host, the location of the reply and a name.  A
    reply from a listed host changes nothing, so the first reply of a host
    stands and a repeated reply is without effect. *)
Theorem on_response_first_reply_stands (ds : list DLNADevice) (r : Reply) :
  (on_response ds r = ds \/
   exists d, on_response ds r = ds ++ [d] /\
             dev_host d = address r /\
             (address r ∉ List.map dev_host ds) /\
             dev_name d <> "" /\ dev_location d <> "" /\
             statusCode r = 200 /\
             headers r !! "LOCATION" = Some (dev_location d)) /\
  (address r ∈ List.map dev_host ds -> on_response ds r = ds) /\
  on_response (on_response ds r) r = on_response ds r.
Proof.
  split; [apply on_response_cases|].
  assert (forall ds', address r ∈ List.map dev_host ds' ->
                      on_response ds' r = ds') as Hlisted.
  { intros ds' Hin.
    destruct (on_response_cases ds' r) as [->|(d & _ & _ & Hnew & _)]; done. }
  split; [apply Hlisted|].
  destruct (on_response_cases ds r) as [Heq|(d & -> & Hhost & _)].
  - rewrite Heq. exact Heq.
  - apply Hlisted. rewrite map_app. simpl. rewrite Hhost.
    apply elem_of_app. right. apply list_elem_of_singleton. reflexivity.
Qed.

Lemma tidy_nil : tidy [].
Proof. split; constructor. Qed.

Lemma cache_tidy (sv : Server) : sound sv -> tidy (cache sv).
Proof.
  intros [Htidy _]. unfold cache.
  destruct (cachedDevices sv) as [id|]; [|apply tidy_nil].
  destruct (scans sv !! id) as [sc|] eqn:Hsc; [|apply tidy_nil].
  by eapply Forall_lookup_1 in Htidy.
Qed.

Lemma server_start_sound : sound server_start.
Proof. split; simpl; [constructor | done]. Qed.

Lemma resolve_sound (id : nat) (before after : Scan) (sv : Server) :
  sound sv -> scans sv !! id = Some before ->
  found after = found before -> requested after = requested before ->
  settled after = true ->
  sound (fst (resolve id before after sv)).
Proof.
  intros [Htidy Hcached] Hid Hfound Hreq Hset.
  pose proof (lookup_lt_Some _ _ _ Hid) as Hlt.
  assert (Forall (λ sc, tidy (found sc)) (<[id := after]> (scans sv))) as Htidy'.
  { apply Forall_insert; [exact Htidy|]. rewrite Hfound.
    by eapply Forall_lookup_1 in Htidy. }
  unfold resolve. destruct (settled before) eqn:Hwas; simpl.
  - split; simpl; [exact Htidy'|]. intros id' Hc.
    destruct (Hcached id' Hc) as (sc & Hsc & Hs & Hr).
    destruct (decide (id' = id)) as [->|Hne].
    + exists after. rewrite list_lookup_insert_eq by done.
      split; [done|]. split; [done|]. congruence.
    + exists sc. by rewrite list_lookup_insert_ne.
  - split; simpl; [exact Htidy'|]. intros id' [= <-].
    exists after. by rewrite list_lookup_insert_eq.
Qed.

Lemma handle_sound (q : Request) (sv sv' : Server) (oa : option Answer) :
  sound sv -> handle q sv = Some (sv', oa) -> sound sv'.
Proof.
  intros Hs. pose proof Hs as [Htidy Hcached].
  destruct q as [now ssdp| |id r|id|id]; simpl.
  - unfold POST. destruct (_ && _); [by intros [= <- _]|].
    destruct ssdp; intros [= <- _]; split; simpl.
    + apply Forall_app. split; [exact Htidy|]. repeat constructor.
    + intros id Hc. destruct (Hcached id Hc) as (sc & Hsc & Hrest).
      exists sc. split; [|exact Hrest]. by apply lookup_app_l_Some.
    + apply Forall_app. split; [exact Htidy|]. repeat constructor.
    + intros id [= <-]. eexists. split.
      * rewrite lookup_app_r by done. by rewrite Nat.sub_diag.
      * done.
  - by intros [= <- _].
  - destruct (scans sv !! id) as [sc|] eqn:Hsc; simpl; [|done].
    destruct (listening sc); [|done]. intros [= <- _].
    pose proof (lookup_lt_Some _ _ _ Hsc) as Hlt. split; simpl.
    + apply Forall_insert; [exact Htidy|]. simpl. apply on_response_tidy.
      by eapply Forall_lookup_1 in Htidy.
    + intros id' Hc. destruct (Hcached id' Hc) as (sc' & Hsc' & Hset & Hreq).
      destruct (decide (id' = id)) as [->|Hne].
      * eexists. rewrite list_lookup_insert_eq by done.
        split; [done|]. simpl. split; congruence.
      * exists sc'. by rewrite list_lookup_insert_ne.
  - destruct (scans sv !! id) as [sc|] eqn:Hsc; simpl; [|done].
    destruct (listening sc); [|done]. intros [= Hres].
    apply (f_equal fst) in Hres. simpl in Hres. subst sv'.
    by apply resolve_sound.
  - destruct (scans sv !! id) as [sc|] eqn:Hsc; simpl; [|done].
    destruct (timer sc); [|done]. intros [= Hres].
    apply (f_equal fst) in Hres. simpl in Hres. subst sv'.
    by apply resolve_sound.
Qed.

(** The answers of the route at a sound state. *)
Lemma handle_answer (q : Request) (sv sv' : Server) (a : Answer) :
  sound sv -> handle q sv = Some (sv', Some a) ->
  ans_success a = true /\ tidy (ans_devices a).
Proof.
  intros Hs. pose proof (cache_tidy sv Hs) as Hcache.
  destruct q as [now ssdp| |id r|id|id]; simpl.
  - unfold POST. destruct (_ && _); [by intros [= _ <-]|].
    destruct ssdp; [done|]. intros [= _ <-]. split; [done|apply tidy_nil].
  - by intros [= _ <-].
  - destruct (scans sv !! id) as [sc|]; simpl; [|done].
    by destruct (listening sc).
  - destruct (scans sv !! id) as [sc|] eqn:Hsc; simpl; [|done].
    destruct (listening sc); [|done]. unfold resolve.
    destruct (settled sc); [done|]. simpl. intros [= _ <-]. simpl.
    split; [done|]. destruct Hs as [Htidy _].
    by eapply Forall_lookup_1 in Htidy.
  - destruct (scans sv !! id) as [sc|] eqn:Hsc; simpl; [|done].
    destruct (timer sc); [|done]. unfold resolve.
    destruct (settled sc); [done|]. simpl. intros [= _ <-]. simpl.
    split; [done|]. destruct Hs as [Htidy _].
    by eapply Forall_lookup_1 in Htidy.
Qed.

Lemma serve_sound (qs : list Request) : forall sv out sv' out',
  sound sv ->
  Forall (λ a, ans_success a = true /\ tidy (ans_devices a)) out ->
  serve qs sv out = Some (sv', out') ->
  sound sv' /\
  Forall (λ a, ans_success a = true /\ tidy (ans_devices a)) out'.
Proof.
  induction qs as [|q qs IH]; intros sv out sv' out' Hs Hout; simpl.
  - by intros [= <- <-].
  - destruct (handle q sv) as [[sv1 [a|]]|] eqn:Hq; [| |done].
    + apply IH; [by eapply handle_sound|].
      constructor; [by eapply handle_answer | exact Hout].
    + apply IH; [by eapply handle_sound | exact Hout].
Qed.

(** X14: whatever requests, replies, errors and timers the route has
    seen, every answer it has given reports success and lists devices
    with pairwise different hosts, each with a name and a location. *)
Theorem route_answers_tidy
    (qs : list Request) (sv : Server) (out : list Answer) :
  serve qs server_start [] = Some (sv, out) ->
  Forall (λ a, ans_success a = true /\
               NoDup (List.map dev_host (ans_devices a)) /\
               Forall (λ d, dev_name d <> "" /\ dev_location d <> "")
                      (ans_devices a)) out.
Proof.
  intros Hserve.
  destruct (serve_sound qs _ _ _ _ server_start_sound (Forall_nil_2 _) Hserve)
    as [_ Hout].
  eapply Forall_impl; [exact Hout|]. intros a [Hok Htidy]. done.
Qed.

Lemma route_answers_tidy_witness :
  Forall (λ a, ans_success a = true /\
               NoDup (List.map dev_host (ans_devices a)) /\
               Forall (λ d, dev_name d <> "" /\ dev_location d <> "")
                      (ans_devices a)) answers_demo.
Proof.
  apply (route_answers_tidy history_demo server_demo answers_demo).
  vm_compute. reflexivity.
Defined.

Lemma serve_reaches_sound (qs : list Request) (sv : Server) (out : list Answer) :
  serve qs server_start [] = Some (sv, out) -> sound sv.
Proof.
  intros Hserve.
  by destruct (serve_sound qs _ _ _ _ server_start_sound (Forall_nil_2 _) Hserve).
Qed.

(** X15: a [POST] is answered from the cache only with a list that is not
    empty and that a scan requested less than [CACHE_DURATION] before has
    found, its promise being resolved; such an answer starts no scan and
    leaves the module state as it is.  The age of the cache counts from
    the request that started the scan. *)
Theorem POST_cache_hit
    (qs : list Request) (sv : Server) (out : list Answer)
    (now : Z) (ssdp : bool) (sv' : Server) (a : Answer) :
  serve qs server_start [] = Some (sv, out) ->
  POST now ssdp sv = (sv', Some a) ->
  ans_cached a = true ->
  sv' = sv /\
  ans_devices a <> [] /\
  exists id sc,
    cachedDevices sv = Some id /\ scans sv !! id = Some sc /\
    settled sc = true /\ ans_devices a = found sc /\
    now - requested sc < CACHE_DURATION.
Proof.
  intros Hs%serve_reaches_sound. unfold POST.
  destruct (now - lastScanTime sv <? CACHE_DURATION) eqn:Hfresh; simpl;
    [destruct (0 <? Z.of_nat (length (cache sv))) eqn:Hfull|]; simpl.
  - intros [= <- <-] _. simpl. apply Z.ltb_lt in Hfresh, Hfull.
    split; [reflexivity|].
    split; [intros Hnil; rewrite Hnil in Hfull; simpl in Hfull; lia|].
    unfold cache in *.
    destruct (cachedDevices sv) as [id|] eqn:Hc; [|simpl in Hfull; lia].
    destruct (s_cached sv Hs id Hc) as (sc & Hsc & Hset & Hreq).
    exists id, sc. rewrite Hsc. repeat split; auto. lia.
  - destruct ssdp; [done|]. by intros [= _ <-].
  - destruct ssdp; [done|]. by intros [= _ <-].
Qed.

Lemma POST_cache_hit_witness :
  server_scanned = server_scanned /\
  ans_devices (GET server_scanned) <> [] /\
  exists id sc,
    cachedDevices server_scanned = Some id /\
    scans server_scanned !! id = Some sc /\
    settled sc = true /\ ans_devices (GET server_scanned) = found sc /\
    110000 - requested sc < CACHE_DURATION.
Proof.
  apply (POST_cache_hit (take 7 history_demo) server_scanned
           (match serve (take 7 history_demo) server_start [] with
            | Some (_, out) => out
            | None => []
            end)
           110000 true server_scanned (GET server_scanned)).
  - vm_compute. reflexivity.
  - vm_compute. reflexivity.
  - reflexivity.
Defined.

Lemma handle_scan_grows (q : Request) (sv sv' : Server) (oa : option Answer)
    (id : nat) (sc : Scan) :
  handle q sv = Some (sv', oa) ->
  scans sv !! id = Some sc ->
  exists sc', scans sv' !! id = Some sc' /\
              found sc `prefix_of` found sc' /\
              requested sc' = requested sc /\
              (listening sc = false ->
               found sc' = found sc /\ listening sc' = false).
Proof.
  intros Hq Hsc. pose proof (lookup_lt_Some _ _ _ Hsc) as Hlt.
  assert (forall sc0 after upd,
             scans sv !! upd = Some sc0 ->
             found sc0 `prefix_of` found after ->
             requested after = requested sc0 ->
             (listening sc0 = false ->
              found after = found sc0 /\ listening after = false) ->
             exists sc', <[upd := after]> (scans sv) !! id = Some sc' /\
                         found sc `prefix_of` found sc' /\
                         requested sc' = requested sc /\
                         (listening sc = false ->
                          found sc' = found sc /\ listening sc' = false))
    as Hupd.
  { intros sc0 after upd Hsc0 Hpre Hreq Hstop.
    destruct (decide (upd = id)) as [->|Hne].
    - exists after. rewrite list_lookup_insert_eq by done.
      assert (sc0 = sc) as -> by congruence. done.
    - exists sc. rewrite list_lookup_insert_ne by done. done. }
  destruct q as [now ssdp| |k r|k|k]; simpl in Hq.
  - unfold POST in Hq. destruct (_ && _).
    + injection Hq as <- _. by exists sc.
    + destruct ssdp; injection Hq as <- _; exists sc; simpl;
        by rewrite lookup_app_l.
  - injection Hq as <- _. by exists sc.
  - destruct (scans sv !! k) as [sc0|] eqn:Hk; simpl in Hq; [|done].
    destruct (listening sc0) eqn:Hlive; [|done]. injection Hq as <- _.
    simpl. apply (Hupd sc0); simpl; [done| |done|by rewrite Hlive].
    destruct (on_response_cases (found sc0) r) as [->|(d & -> & _)];
      [done | by apply prefix_app_r].
  - destruct (scans sv !! k) as [sc0|] eqn:Hk; simpl in Hq; [|done].
    destruct (listening sc0) eqn:Hlive; [|done]. injection Hq as Hq.
    unfold resolve in Hq.
    destruct (settled sc0); injection Hq as <- _; simpl;
      apply (Hupd sc0); simpl; try done; by rewrite Hlive.
  - destruct (scans sv !! k) as [sc0|] eqn:Hk; simpl in Hq; [|done].
    destruct (timer sc0); [|done]. injection Hq as Hq.
    unfold resolve in Hq.
    destruct (settled sc0); injection Hq as <- _; simpl;
      apply (Hupd sc0); simpl; done.
Qed.

(** X16: the list of a scan only grows at its end, and once its client
    has been stopped by the timer it does not change any more, whatever
    comes later; a cache that refers to such a scan keeps its content
    until another scan takes its place. *)
Theorem scan_list_grows_then_freezes
    (qs : list Request) (sv sv' : Server) (out out' : list Answer)
    (id : nat) (sc : Scan) :
  serve qs sv out = Some (sv', out') ->
  scans sv !! id = Some sc ->
  exists sc', scans sv' !! id = Some sc' /\
              found sc `prefix_of` found sc' /\
              requested sc' = requested sc /\
              (listening sc = false ->
               found sc' = found sc /\ listening sc' = false /\
               (cachedDevices sv' = Some id -> cache sv' = found sc)).
Proof.
  revert sv out sc. induction qs as [|q qs IH]; intros sv out sc; simpl.
  - intros [= <- <-] Hsc. exists sc.
    split; [done|]. split; [done|]. split; [done|].
    intros Hoff. split; [done|]. split; [done|].
    intros Hc. unfold cache. by rewrite Hc, Hsc.
  - destruct (handle q sv) as [[sv1 oa]|] eqn:Hq; [|done].
    intros Hserve Hsc.
    destruct (handle_scan_grows q sv sv1 oa id sc Hq Hsc)
      as (sc1 & Hsc1 & Hpre1 & Hreq1 & Hstop1).
    assert (exists out1, serve qs sv1 out1 = Some (sv', out')) as [out1 Hrest].
    { destruct oa; eauto. }
    destruct (IH sv1 out1 sc1 Hrest Hsc1) as (sc' & Hsc' & Hpre & Hreq & Hstop).
    exists sc'. split; [exact Hsc'|].
    split; [by etrans|]. split; [congruence|].
    intros Hoff. destruct (Hstop1 Hoff) as [Hf1 Hl1].
    destruct (Hstop Hl1) as (Hf & Hl & Hc). rewrite Hf1 in Hf, Hc. done.
Qed.

Lemma scan_list_grows_then_freezes_witness :
  exists sc', scans server_demo !! 0%nat = Some sc' /\
              found scan_scanned `prefix_of` found sc' /\
              requested sc' = requested scan_scanned /\
              (listening scan_scanned = false ->
               found sc' = found scan_scanned /\
               listening sc' = false /\
               (cachedDevices server_demo = Some 0%nat ->
                cache server_demo = found scan_scanned)).
Proof.
  apply (scan_list_grows_then_freezes (drop 7 history_demo)
           server_scanned server_demo [] [GET server_demo; GET server_demo]
           0%nat scan_scanned).
  - vm_compute. reflexivity.
  - vm_compute. reflexivity.
Defined.
